(** * Parallel file-tree digest: the [Hacks/__main__.py] program

    A shallow embedding of the digest program (sink [notify], worker
    [compute_digest], driver [build_digest_map]) together with the
    library operations it calls: [hashlib.sha512], [%]-formatting,
    [os.walk], [os.path.join], [multiprocessing.Pool.starmap] and [dict].

    Conventions of the model:
    - effects are explicit: a computation takes the state of the run and
      returns a result or an exception together with the new state;
    - the file system is read-only during a run, paths are POSIX paths,
      and the run log is not itself under the walked directory;
    - with one worker process the calls of [msPrint] reach the shared
      [notify] object one after the other. With more processes the manager
      serves each worker in a thread of its own and holds no lock, so the
      steps of the calls follow each other in an order that is a parameter
      of the run; each access to the counter, each [print] and each
      [write] is one step. *)

From Stdlib Require Import ZArith NArith Lia.
From Stdlib Require Import Strings.Byte Strings.Ascii Strings.String.
From stdpp Require Import gmap strings list fin_maps pretty.
From Equations Require Import Equations.

Local Open Scope Z_scope.

(** ** [hashlib.sha512]: FIPS 180-4 SHA-512, one-shot and streaming *)

Module SHA512.

(** 64-bit words are integers in [0, 2^64); additions wrap around. *)
Definition add64 (x y : Z) : Z := (x + y) mod 2 ^ 64.
Definition not64 (x : Z) : Z := Z.lxor x (2 ^ 64 - 1).
Definition SHR (n x : Z) : Z := Z.shiftr x n.
Definition ROTR (n x : Z) : Z :=
  Z.lor (Z.shiftr x n) (Z.shiftl x (64 - n) mod 2 ^ 64).

Definition Ch (x y z : Z) : Z := Z.lxor (Z.land x y) (Z.land (not64 x) z).
Definition Maj (x y z : Z) : Z :=
  Z.lxor (Z.lxor (Z.land x y) (Z.land x z)) (Z.land y z).
Definition Sigma0 (x : Z) : Z := Z.lxor (Z.lxor (ROTR 28 x) (ROTR 34 x)) (ROTR 39 x).
Definition Sigma1 (x : Z) : Z := Z.lxor (Z.lxor (ROTR 14 x) (ROTR 18 x)) (ROTR 41 x).
Definition sigma0 (x : Z) : Z := Z.lxor (Z.lxor (ROTR 1 x) (ROTR 8 x)) (SHR 7 x).
Definition sigma1 (x : Z) : Z := Z.lxor (Z.lxor (ROTR 19 x) (ROTR 61 x)) (SHR 6 x).

(** The eighty round constants. *)
Definition K : list Z :=
  [
    0x428a2f98d728ae22; 0x7137449123ef65cd; 0xb5c0fbcfec4d3b2f; 0xe9b5dba58189dbbc;
    0x3956c25bf348b538; 0x59f111f1b605d019; 0x923f82a4af194f9b; 0xab1c5ed5da6d8118;
    0xd807aa98a3030242; 0x12835b0145706fbe; 0x243185be4ee4b28c; 0x550c7dc3d5ffb4e2;
    0x72be5d74f27b896f; 0x80deb1fe3b1696b1; 0x9bdc06a725c71235; 0xc19bf174cf692694;
    0xe49b69c19ef14ad2; 0xefbe4786384f25e3; 0x0fc19dc68b8cd5b5; 0x240ca1cc77ac9c65;
    0x2de92c6f592b0275; 0x4a7484aa6ea6e483; 0x5cb0a9dcbd41fbd4; 0x76f988da831153b5;
    0x983e5152ee66dfab; 0xa831c66d2db43210; 0xb00327c898fb213f; 0xbf597fc7beef0ee4;
    0xc6e00bf33da88fc2; 0xd5a79147930aa725; 0x06ca6351e003826f; 0x142929670a0e6e70;
    0x27b70a8546d22ffc; 0x2e1b21385c26c926; 0x4d2c6dfc5ac42aed; 0x53380d139d95b3df;
    0x650a73548baf63de; 0x766a0abb3c77b2a8; 0x81c2c92e47edaee6; 0x92722c851482353b;
    0xa2bfe8a14cf10364; 0xa81a664bbc423001; 0xc24b8b70d0f89791; 0xc76c51a30654be30;
    0xd192e819d6ef5218; 0xd69906245565a910; 0xf40e35855771202a; 0x106aa07032bbd1b8;
    0x19a4c116b8d2d0c8; 0x1e376c085141ab53; 0x2748774cdf8eeb99; 0x34b0bcb5e19b48a8;
    0x391c0cb3c5c95a63; 0x4ed8aa4ae3418acb; 0x5b9cca4f7763e373; 0x682e6ff3d6b2b8a3;
    0x748f82ee5defb2fc; 0x78a5636f43172f60; 0x84c87814a1f0ab72; 0x8cc702081a6439ec;
    0x90befffa23631e28; 0xa4506cebde82bde9; 0xbef9a3f7b2c67915; 0xc67178f2e372532b;
    0xca273eceea26619c; 0xd186b8c721c0c207; 0xeada7dd6cde0eb1e; 0xf57d4f7fee6ed178;
    0x06f067aa72176fba; 0x0a637dc5a2c898a6; 0x113f9804bef90dae; 0x1b710b35131c471b;
    0x28db77f523047d84; 0x32caab7b40c72493; 0x3c9ebe0a15c9bebc; 0x431d67c49c100d4c;
    0x4cc5d4becb3e42b6; 0x597f299cfc657e2a; 0x5fcb6fab3ad6faec; 0x6c44198c4a475817 ].

(** The eight working variables / the intermediate hash value. *)
Record regs := Regs { ra : Z; rb : Z; rc : Z; rd : Z; re : Z; rf : Z; rg : Z; rh : Z }.

Definition H0 : regs :=
  Regs 0x6a09e667f3bcc908 0xbb67ae8584caa73b 0x3c6ef372fe94f82b 0xa54ff53a5f1d36f1
       0x510e527fade682d1 0x9b05688c2b3e6c1f 0x1f83d9abfb41bd6b 0x5be0cd19137e2179.

Definition Z_of_byte (b : byte) : Z := Z.of_N (Byte.to_N b).
Definition byte_of_Z (z : Z) : byte :=
  match Byte.of_N (Z.to_N (z mod 256)) with Some b => b | None => x00 end.

(** Big-endian decoding and encoding. *)
Definition be_decode (bs : list byte) : Z :=
  fold_left (fun acc b => acc * 256 + Z_of_byte b) bs 0.
Definition be_encode (len : nat) (z : Z) : list byte :=
  map (fun i => byte_of_Z (Z.shiftr z (8 * Z.of_nat (len - 1 - i)))) (seq 0 len).

(** The sixteen words of a 128-byte block. *)
Definition block_words (blk : list byte) : list Z :=
  map (fun i => be_decode (take 8 (drop (8 * i) blk))) (seq 0 16).

(** Message schedule, kept newest-first while it is extended:
    W_t = sigma1 W_(t-2) + W_(t-7) + sigma0 W_(t-15) + W_(t-16). *)
Fixpoint extend (n : nat) (rw : list Z) : list Z :=
  match n with
  | O => rw
  | S n' =>
      let wt := add64 (add64 (add64 (sigma1 (nth 1 rw 0)) (nth 6 rw 0))
                             (sigma0 (nth 14 rw 0))) (nth 15 rw 0) in
      extend n' (wt :: rw)
  end.
Definition message_schedule (blk : list byte) : list Z :=
  rev (extend 64 (rev (block_words blk))).

Definition round (v : regs) (kw : Z * Z) : regs :=
  let t1 := add64 (add64 (add64 (add64 (rh v) (Sigma1 (re v)))
                                (Ch (re v) (rf v) (rg v))) (fst kw)) (snd kw) in
  let t2 := add64 (Sigma0 (ra v)) (Maj (ra v) (rb v) (rc v)) in
  Regs (add64 t1 t2) (ra v) (rb v) (rc v) (add64 (rd v) t1) (re v) (rf v) (rg v).

Definition compress (h : regs) (blk : list byte) : regs :=
  let v := fold_left round (zip K (message_schedule blk)) h in
  Regs (add64 (ra h) (ra v)) (add64 (rb h) (rb v)) (add64 (rc h) (rc v))
       (add64 (rd h) (rd v)) (add64 (re h) (re v)) (add64 (rf h) (rf v))
       (add64 (rg h) (rg v)) (add64 (rh h) (rh v)).

(** Padding for a message of [len] bytes: 0x80, zeros, and the bit length
    as a 128-bit big-endian integer, up to a multiple of 128 bytes. *)
Definition padding (len : nat) : list byte :=
  x80 :: replicate (Z.to_nat ((111 - Z.of_nat len) mod 128)) x00
      ++ be_encode 16 (8 * Z.of_nat len).

Definition regs_bytes (h : regs) : list byte :=
  be_encode 8 (ra h) ++ be_encode 8 (rb h) ++ be_encode 8 (rc h) ++ be_encode 8 (rd h)
  ++ be_encode 8 (re h) ++ be_encode 8 (rf h) ++ be_encode 8 (rg h) ++ be_encode 8 (rh h).

(** The reference hash: pad the whole message, parse it into blocks
    M(0) .. M(N-1) and fold the compression function over them. *)
Definition nth_block (msg : list byte) (i : nat) : list byte :=
  take 128 (drop (128 * i) msg).
Definition hash_blocks (h : regs) (msg : list byte) : regs :=
  fold_left (fun h i => compress h (nth_block msg i)) (seq 0 (length msg / 128)) h.
Definition sha512 (msg : list byte) : list byte :=
  regs_bytes (hash_blocks H0 (msg ++ padding (length msg))).

(** The streaming object returned by [hashlib.sha512()]: the intermediate
    hash value, the bytes of the unfinished block and the byte count. *)
Record hasher := Hasher { hstate : regs; buffer : list byte; count : nat }.

Definition new : hasher := Hasher H0 [] 0.

(** Consume every complete block of [bs]; return what is left over. *)
Equations? absorb (h : regs) (bs : list byte) : regs * list byte
  by wf (length bs) lt :=
  absorb h bs with le_lt_dec 128 (length bs) => {
    | left _ := absorb (compress h (take 128 bs)) (drop 128 bs);
    | right _ := (h, bs) }.
Proof. rewrite length_drop. lia. Qed.

Definition update (o : hasher) (data : list byte) : hasher :=
  let '(h, rest) := absorb (hstate o) (buffer o ++ data) in
  Hasher h rest (count o + length data).

Definition digest (o : hasher) : list byte :=
  regs_bytes (fst (absorb (hstate o) (buffer o ++ padding (count o)))).

(** The object [o] has been fed exactly the bytes [msg]. *)
Definition fed (o : hasher) (msg : list byte) : Prop :=
  absorb H0 msg = (hstate o, buffer o) ∧ count o = length msg.

(** [bytes.hex()]: two lowercase hexadecimal digits per byte. *)
Definition hex_digit (n : Z) : ascii :=
  match String.get (Z.to_nat n) "0123456789abcdef" with Some c => c | None => "0"%char end.
Definition hex (bs : list byte) : string :=
  fold_right (fun b s => String (hex_digit (Z_of_byte b / 16))
                          (String (hex_digit (Z_of_byte b mod 16)) s)) EmptyString bs.

(** The characters [bytes.hex()] can produce. *)
Definition is_lower_hex (c : ascii) : bool :=
  bool_decide (c ∈ list_ascii_of_string "0123456789abcdef").

End SHA512.

#[global] Arguments SHA512.hex : simpl never.
#[global] Arguments SHA512.digest : simpl never.
#[global] Arguments SHA512.sha512 : simpl never.
#[global] Arguments SHA512.update : simpl never.

Definition bytes_of_string (s : string) : list byte :=
  map byte_of_ascii (list_ascii_of_string s).

(** ** Python values and control flow *)

(** Exception classes the program can meet ([IOError] is [OSError]). *)
Inductive exn := OSError | TypeError | ValueError | RemoteError.

Inductive result (A : Type) := Ret (a : A) | Raise (e : exn).
Arguments Ret {A} a.
Arguments Raise {A} e.

#[global] Instance exn_eq_dec : EqDecision exn.
Proof. solve_decision. Defined.

(** ** [%]-formatting and slicing of [str] *)

Module Fmt.

Definition TAB : string := String "009"%char EmptyString.
Definition NL : string := String "010"%char EmptyString.
Definition CR : string := String "013"%char EmptyString.

Fixpoint fill (c : ascii) (n : nat) : string :=
  match n with O => EmptyString | S n' => String c (fill c n') end.

(** ['%-<w>s' % s]: pad with spaces on the right up to width [w]. *)
Definition ljust (w : nat) (s : string) : string :=
  s +:+ fill " "%char (w - String.length s).

(** ['%0<w>d' % n] for a non-negative [n]. *)
Definition zero_padded (w n : nat) : string :=
  let d := pretty n in fill "0"%char (w - String.length d) +:+ d.

(** [s[:n]] *)
Definition slice_to (n : nat) (s : string) : string := substring 0 n s.

End Fmt.

(** ** The file system seen by the program *)

(** An open binary file: the bytes still to be read, and whether the
    device fails (instead of signalling end of file) once they are used up. *)
Record stream := Stream { data : list byte; faulty : bool }.

(** A directory tree as [os.scandir] shows it, entries in listing order. *)
#[warnings="-register-all"]
Inductive node :=
| File
| Dir (readable : bool) (entries : list (string * node)).

Record filesystem := Filesystem {
  lookup_dir : string → option node;   (* what a path given to [os.walk] denotes *)
  open_rb : string → option stream;    (* [open(p, "rb")]; [None]: raises IOError *)
  open_w : string → bool               (* can [open(p, 'w')] create the file *)
}.

(** [f.read(n)] on a buffered binary file: [n] bytes unless the end of the
    file comes first; an I/O fault met on the way raises. *)
Fixpoint take_bytes (n : N) (l : list byte) : list byte * list byte :=
  match l with
  | [] => ([], [])
  | b :: l' =>
      if (n =? 0)%N then ([], l)
      else let '(c, r) := take_bytes (N.pred n) l' in (b :: c, r)
  end.

Definition read (n : N) (f : stream) : result (list byte) * stream :=
  let '(chunk, rest) := take_bytes n (data f) in
  if faulty f && (N.of_nat (length chunk) <? n)%N
  then (Raise OSError, f)
  else (Ret chunk, Stream rest (faulty f)).

(** [posixpath.join] of two components. *)
Definition starts_with_sep (s : string) : bool :=
  match s with String c _ => bool_decide (c = "/"%char) | EmptyString => false end.
Fixpoint ends_with_sep (s : string) : bool :=
  match s with
  | EmptyString => false
  | String c EmptyString => bool_decide (c = "/"%char)
  | String _ s' => ends_with_sep s'
  end.
Definition join (a b : string) : string :=
  if starts_with_sep b then b
  else if bool_decide (a = EmptyString) || ends_with_sep a then a +:+ b
  else a +:+ "/" +:+ b.

(** [os.walk(top)], top-down, [onerror=None]: a directory that cannot be
    listed (missing, not a directory, no permission) contributes nothing
    and raises nothing. Symbolic links are not modelled. *)
Definition is_dir (n : node) : bool := match n with Dir _ _ => true | File => false end.
Definition dirnames (entries : list (string * node)) : list string :=
  map fst (filter (λ e, is_dir e.2 = true) entries).
Definition filenames (entries : list (string * node)) : list string :=
  map fst (filter (λ e, is_dir e.2 = false) entries).

Fixpoint walk (top : string) (n : node) {struct n}
  : list (string * list string * list string) :=
  match n with
  | File => []
  | Dir false _ => []
  | Dir true entries =>
      (top, dirnames entries, filenames entries)
        :: flat_map (λ e, match e.2 with
                          | File => []
                          | Dir r es => walk (join top e.1) e.2
                          end) entries
  end.

Definition os_walk (fs : filesystem) (top : string)
  : list (string * list string * list string) :=
  match lookup_dir fs top with
  | Some n => walk top n
  | None => []
  end.

(** ** Program state *)

(** The [notify] object: counter, run log (the strings written so far)
    and whether the log has been closed. *)
Record notify := Notify { x : nat; file : list string; closed : bool }.

Inductive logger := log0 | log1.

(** What a run can change: the one [notify] instance held by the manager,
    the console, and the records sent to the two loggers. *)
Record state := State {
  printer : notify;
  stdout : list string;
  logging : list (logger * string)
}.

(** Computations that may change the state and may raise. Effects made
    before an exception is raised stay in the state. *)
Definition M (A : Type) : Type := state → result A * state.

#[global] Instance M_ret : MRet M := λ A a st, (Ret a, st).
#[global] Instance M_bind : MBind M := λ A B k m st,
  match m st with
  | (Ret a, st') => k a st'
  | (Raise e, st') => (Raise e, st')
  end.

Definition lift {A} (r : result A) : M A := λ st, (r, st).
Definition print (s : string) : M unit :=
  λ st, (Ret (), State (printer st) (stdout st ++ [s]) (logging st)).
Definition info (l : logger) (msg : string) : M unit :=
  λ st, (Ret (), State (printer st) (stdout st) (logging st ++ [(l, msg)])).

(** ** Source: tunables *)

(** The module-level values; the functions below take them as arguments,
    since the program changes [POOLSIZE] between its two runs. *)

Definition BUFSIZE : N := 2 ^ 25.
Definition POOLSIZE : nat := 1.

(** ** Source: class [notify] *)

(** [notify.__init__(fname)], run inside the manager; a failure there
    comes back to the caller as [RemoteError]. *)
Definition notify_init (fs : filesystem) (fname : string) : M unit := λ st,
  if open_w fs fname
  then (Ret (), State (Notify 0 [] false) (stdout st) (logging st))
  else (Raise RemoteError, st).

Definition progress_line (n : nat) (filename digest : string) : string :=
  Fmt.zero_padded 6 n +:+ " > " +:+ Fmt.ljust 125 (Fmt.slice_to 125 filename)
    +:+ " : " +:+ Fmt.ljust 20 (Fmt.slice_to 20 digest) +:+ Fmt.CR.

Definition log_line (filename digest : string) : string :=
  Fmt.ljust 175 filename +:+ Fmt.TAB +:+ digest +:+ Fmt.NL.

#[global] Arguments progress_line : simpl never.
#[global] Arguments log_line : simpl never.

(** [self.file.write] on a closed file raises [ValueError]. *)
Definition file_write (s : string) : M unit := λ st,
  let p := printer st in
  if closed p then (Raise ValueError, st)
  else (Ret (), State (Notify (x p) (file p ++ [s]) false) (stdout st) (logging st)).

Definition get_x : M nat := λ st, (Ret (x (printer st)), st).
Definition incr_x : M unit := λ st,
  let p := printer st in
  (Ret (), State (Notify (S (x p)) (file p) (closed p)) (stdout st) (logging st)).
Definition file_close : M unit := λ st,
  let p := printer st in
  (Ret (), State (Notify (x p) (file p) true) (stdout st) (logging st)).

Definition msPrint (filename digest : string) : M unit :=
  incr_x ;;
  n ← get_x;
  print (progress_line n filename digest) ;;
  file_write (log_line filename digest).

Definition final : M unit :=
  print Fmt.NL ;;
  n ← get_x;
  print ("Files Processed:" +:+ Fmt.TAB +:+ Fmt.zero_padded 6 n +:+ Fmt.NL) ;;
  file_close.

(** ** Source: [compute_digest] *)

Lemma take_bytes_length (n : N) (l c r : list byte) :
  take_bytes n l = (c, r) → (length c + length r = length l)%nat.
Proof.
  revert n c r. induction l as [|a l IH]; intros n c r; simpl.
  - by intros [= <- <-].
  - destruct (n =? 0)%N; [by intros [= <- <-]|].
    destruct (take_bytes (N.pred n) l) as [c' r'] eqn:E.
    intros [= <- <-]. simpl. by rewrite (IH _ _ _ E).
Qed.

Lemma take_bytes_shrinks (n : N) (l : list byte) b c r :
  take_bytes n l = (b :: c, r) → (length r < length l)%nat.
Proof. intros H%take_bytes_length. simpl in H. lia. Qed.

(** Keeps the equation between a value and the pattern it is matched with. *)
Definition inspect {A : Type} (a : A) : {b : A | a = b} := exist _ a eq_refl.

(** The [while True] loop: read, stop on an empty chunk, else update.
    The recursion is on the bytes left in the file. *)
Equations? read_loop (bufsize : N) (filename : string) (f : stream)
    (digest : SHA512.hasher) (st : state) : result SHA512.hasher * state
  by wf (length (data f)) lt :=
  read_loop bufsize filename f digest st with inspect (read bufsize f) => {
    | exist _ (Raise e, _) _ := (Raise e, st);
    | exist _ (Ret [], _) _ :=
        (Ret digest, (info log0 (filename +:+ " digest calculated") st).2);
    | exist _ (Ret (b :: chunk), f') Hread :=
        read_loop bufsize filename f' (SHA512.update digest (b :: chunk))
          (info log1 (filename +:+ " digest being updated") st).2 }.
Proof.
  unfold read in *.
  destruct (take_bytes bufsize (data f)) as [c r] eqn:Htake.
  destruct (faulty f && _); [discriminate|].
  injection Hread as Hc Hf. subst c f'. simpl.
  by eapply take_bytes_shrinks.
Qed.

(** [compute_digest(filename, printer)] with [BUFSIZE = bufsize]. The
    [printer] argument is the proxy of the [notify] instance of the state.
    Python's [None] and [(filename, dValue)] are [None] and [Some _]. *)
Definition compute_digest (bufsize : N) (fs : filesystem) (filename : string)
  : M (option (string * string)) :=
  match open_rb fs filename with
  | None => mret None
  | Some f =>
      digest ← read_loop bufsize filename f SHA512.new;
      let dValue := SHA512.hex (SHA512.digest digest) in
      msPrint filename dValue ;;
      mret (Some (filename, dValue))
  end.

(** ** Calls that overlap *)

(** With several worker processes the calls of [compute_digest] run side
    by side, and the manager serves the [msPrint] call of each worker in a
    thread of its own, holding no lock. A [thread] is a computation cut
    into the actions that are not interrupted: a [Step] is one action on
    the state of the run, and between two steps of a thread the steps of
    the others can take place. *)
Inductive thread (R : Type) : Type :=
  | Done (v : R)
  | Step {X : Type} (m : M X) (k : X → thread R).
Arguments Done {R} v.
Arguments Step {R X} m k.

Fixpoint thread_bind {R S : Type} (k : R → thread S) (t : thread R) : thread S :=
  match t with
  | Done v => k v
  | Step m k' => Step m (λ x, thread_bind k (k' x))
  end.

#[global] Instance thread_ret : MRet thread := @Done.
#[global] Instance thread_mbind : MBind thread := @thread_bind.

(** One action. *)
Definition atomic {X} (m : M X) : thread X := Step m Done.

(** A thread that nothing interrupts, from its first step to its last. *)
Fixpoint run {R} (t : thread R) : M R :=
  match t with
  | Done v => mret v
  | Step m k => x ← m; run (k x)
  end.

Definition set_x (n : nat) : M unit := λ st,
  let p := printer st in
  (Ret (), State (Notify n (file p) (closed p)) (stdout st) (logging st)).

(** [notify.msPrint] in a thread of the manager: [self.x += 1] reads the
    counter and then writes it, the progress line reads it again, and
    the [print] and the [write] follow, each a step. A string handed to
    [print] or [write] is taken as a whole: lines are not torn. *)
Definition msPrint_steps (filename digest : string) : thread unit :=
  n ← atomic get_x;
  atomic (set_x (S n)) ;;
  n ← atomic get_x;
  atomic (print (progress_line n filename digest)) ;;
  atomic (file_write (log_line filename digest)).

(** The reading loop in a worker process: the file is the worker's own,
    and each record sent to a logger is a step. *)
Equations? read_loop_steps (bufsize : N) (filename : string) (f : stream)
    (digest : SHA512.hasher) : thread SHA512.hasher
  by wf (length (data f)) lt :=
  read_loop_steps bufsize filename f digest with inspect (read bufsize f) => {
    | exist _ (Raise e, _) _ := atomic (lift (Raise e));
    | exist _ (Ret [], _) _ :=
        Step (info log0 (filename +:+ " digest calculated")) (λ _, Done digest);
    | exist _ (Ret (b :: chunk), f') Hread :=
        Step (info log1 (filename +:+ " digest being updated"))
             (λ _, read_loop_steps bufsize filename f'
                     (SHA512.update digest (b :: chunk))) }.
Proof.
  unfold read in *.
  destruct (take_bytes bufsize (data f)) as [c r] eqn:Htake.
  destruct (faulty f && _); [discriminate|].
  injection Hread as Hc Hf. subst c f'. simpl.
  by eapply take_bytes_shrinks.
Qed.

(** [compute_digest] with its steps told apart. *)
Definition compute_digest_steps (bufsize : N) (fs : filesystem) (filename : string)
  : thread (option (string * string)) :=
  match open_rb fs filename with
  | None => mret None
  | Some f =>
      digest ← read_loop_steps bufsize filename f SHA512.new;
      let dValue := SHA512.hex (SHA512.digest digest) in
      msPrint_steps filename dValue ;;
      mret (Some (filename, dValue))
  end.

(** ** [multiprocessing.Pool] *)

(** [Pool(processes)] refuses a number of processes below one. *)

Definition Pool (processes : nat) : M unit :=
  if bool_decide (processes < 1)%nat then lift (Raise ValueError) else mret ().

(** Tasks are cut into batches of [chunksize] consecutive tasks. *)
Definition chunksize (len processes : nat) : nat :=
  if bool_decide (len = 0)%nat then 0%nat
  else (len / (processes * 4) + (if bool_decide (len mod (processes * 4) = 0) then 0 else 1))%nat.

(** [Pool._get_tasks]: the batches, in the order of the tasks. *)
Fixpoint get_tasks {A} (fuel size : nat) (it : list A) : list (list A) :=
  match fuel with
  | O => []
  | S fuel' =>
      match take size it with
      | [] => []
      | x => x :: get_tasks fuel' size (drop size it)
      end
  end.

(** [mapstar]: a worker runs the tasks of its batch one after the other;
    an exception ends the batch, and is its result. *)
Fixpoint mapstar {A R} (f : A → thread R) (chunk : list A) : thread (list R) :=
  match chunk with
  | [] => mret []
  | a :: chunk' => v ← f a; vs ← mapstar f chunk'; mret (v :: vs)
  end.

(** The [MapResult] being filled: one slot per task ([None] until its
    result arrives), the first exception received, the failed batches. *)
Record map_result (T : Type) := MapResult {
  value : list (option T);
  failure : option exn;
  aborted : list nat
}.
Arguments MapResult {T} _ _ _.
Arguments value {T} _.
Arguments failure {T} _.
Arguments aborted {T} _.

(** One worker process: task [i] gets its turn and is run from its first
    step to its last, since no other call is under way. A task of a batch
    that already failed is never run; a task that raises fails its batch,
    and the first exception to arrive is the one kept. An index that is
    no task is skipped. *)
Definition pool_step {A T} (f : A → M (option T)) (args : list A) (csize : nat)
    (acc : map_result T * state) (i : nat) : map_result T * state :=
  let '(r, st) := acc in
  match args !! i with
  | None => acc
  | Some a =>
      if bool_decide ((i / csize)%nat ∈ aborted r) then acc
      else match f a st with
           | (Ret v, st') => (MapResult (<[i:=v]> (value r)) (failure r) (aborted r), st')
           | (Raise e, st') =>
               (MapResult (value r)
                          (match failure r with Some e0 => Some e0 | None => Some e end)
                          ((i / csize)%nat :: aborted r), st')
           end
  end.

(** Several worker processes. A batch waits in the task queue, is under
    way in worker [w], has delivered its results, or has failed. *)
Inductive batch (R : Type) : Type :=
  | Queued (t : thread (list R))
  | Running (w : nat) (t : thread (list R))
  | Delivered (vs : list R)
  | Failed.
Arguments Queued {R} t.
Arguments Running {R} w t.
Arguments Delivered {R} vs.
Arguments Failed {R}.

Definition run_by {R} (w : nat) (b : batch R) : bool :=
  match b with Running w' _ => bool_decide (w' = w) | _ => false end.
Definition queued {R} (b : batch R) : bool :=
  match b with Queued _ => true | _ => false end.
Definition delivered {R} (b : batch R) : list R :=
  match b with Delivered vs => vs | _ => [] end.

(** The index of the first element that satisfies [p]. *)
Fixpoint position {B} (p : B → bool) (l : list B) : option nat :=
  match l with
  | [] => None
  | b :: l' => if p b then Some 0%nat else S <$> position p l'
  end.

Definition first_failure (fail : option exn) (e : exn) : option exn :=
  match fail with Some e0 => Some e0 | None => Some e end.

(** Worker [w] moves. If it has a batch under way it makes the next step
    of it, or hands over the results when no step is left; an exception
    fails the batch. If it has none it takes the first batch of the
    queue. *)
Definition turn {R} (acc : list (batch R) * option exn * state) (w : nat)
  : list (batch R) * option exn * state :=
  let '(bs, fail, st) := acc in
  match position (run_by w) bs with
  | Some j =>
      match bs !! j with
      | Some (Running _ (Done vs)) => (<[j:=Delivered vs]> bs, fail, st)
      | Some (Running _ (Step m k)) =>
          match m st with
          | (Ret x, st') => (<[j:=Running w (k x)]> bs, fail, st')
          | (Raise e, st') => (<[j:=Failed]> bs, first_failure fail e, st')
          end
      | _ => acc
      end
  | None =>
      match position queued bs with
      | Some j =>
          match bs !! j with
          | Some (Queued t) => (<[j:=Running w t]> bs, fail, st)
          | _ => acc
          end
      | None => acc
      end
  end.

(** The batches still queued or under way are brought to their end, one
    after the other. *)
Fixpoint finish {R} (bs : list (batch R)) (fail : option exn) (st : state)
  : list (batch R) * option exn * state :=
  match bs with
  | [] => ([], fail, st)
  | b :: bs' =>
      let '(b', fail', st') :=
        match b with
        | Queued t | Running _ t =>
            match run t st with
            | (Ret vs, st') => (Delivered vs, fail, st')
            | (Raise e, st') => (Failed, first_failure fail e, st')
            end
        | _ => (b, fail, st)
        end in
      let '(r, fail'', st'') := finish bs' fail' st' in
      (b' :: r, fail'', st'')
  end.

(** [pool.starmap(f, args)]: results come back in the order of [args]
    whatever the order of execution. If a task raised, the first exception
    received is raised instead, once all the batches are done.

    One process runs the tasks in their order, each as a whole. With more
    processes [sched] names the worker that moves next, turn after turn;
    when [sched] is used up the batches left are finished in order, so
    that every [sched] stands for one way the steps of the workers can
    follow each other, and every such way is that of some [sched]. *)
Definition starmap {A T} (processes : nat) (sched : list nat)
    (f : A → thread (option T)) (args : list A) : M (list (option T)) := λ st,
  let n := length args in
  let csize := chunksize n processes in
  if bool_decide (processes = 1%nat) then
    let '(r, st') :=
      fold_left (pool_step (λ a, run (f a)) args csize) (seq 0 n)
                (MapResult (replicate n None) None [], st) in
    match failure r with
    | Some e => (Raise e, st')
    | None => (Ret (value r), st')
    end
  else
    let bs := (λ chunk, Queued (mapstar f chunk)) <$> get_tasks n csize args in
    let '(bs1, fail1, st1) := fold_left turn sched (bs, None, st) in
    let '(bs2, fail2, st2) := finish bs1 fail1 st1 in
    match fail2 with
    | Some e => (Raise e, st2)
    | None => (Ret (bs2 ≫= delivered), st2)
    end.

(** [dict(iterable)]: every element must be a pair; later keys win. *)
Fixpoint dict_update (l : list (option (string * string))) (m : gmap string string)
  : result (gmap string string) :=
  match l with
  | [] => Ret m
  | None :: _ => Raise TypeError
  | Some (k, v) :: l' => dict_update l' (<[k:=v]> m)
  end.
Definition dict (l : list (option (string * string))) : result (gmap string string) :=
  dict_update l ∅.

(** ** Source: [build_digest_map] *)

(** The generator [allfiles]: every non-directory entry met by the walk,
    joined to the path of its directory. *)
Definition allfiles (fs : filesystem) (topdir : string) : list string :=
  flat_map (λ '(path, dirs, files), map (join path) files) (os_walk fs topdir).

(** [build_digest_map(topdir, fname)] with [POOLSIZE = poolsize]. The
    tasks [(file, temp)] are the file names, [temp] being the sink of the
    state; [digest_pool.close()] and [manager.shutdown()] change nothing
    that is modelled. *)
Definition build_digest_map (bufsize : N) (poolsize : nat) (sched : list nat)
    (fs : filesystem) (topdir fname : string) : M (gmap string string) :=
  Pool poolsize ;;
  notify_init fs fname ;;
  let argsR := allfiles fs topdir in
  info log0 "launching the Imaps" ;;
  results ← starmap poolsize sched (compute_digest_steps bufsize fs) argsR;
  digest_map ← lift (dict results);
  final ;;
  mret digest_map.

(** The schedules of a pool: every turn goes to one of its workers; a
    pool of one process leaves no choice. *)
Definition schedule_of (processes n : nat) (sched : list nat) : Prop :=
  processes = 1%nat ∨ Forall (λ w, (w < processes)%nat) sched.

(** ** Vocabulary of the statements *)

(** The state of a run whose sink has just been created. *)
Definition fresh : state := State (Notify 0 [] false) [] [].

(** The result of a worker on [filename] while the sink is open; it depends
    on the file alone. *)
Definition outcome (bufsize : N) (fs : filesystem) (filename : string)
  : result (option (string * string)) :=
  (compute_digest bufsize fs filename fresh).1.

(** What a worker result makes the sink record: a success is reported,
    nothing else is. *)
Definition reported (r : result (option (string * string))) : list (string * string) :=
  match r with Ret (Some fd) => [fd] | _ => [] end.

(** One [msPrint] call on an open sink, on the counter, the run log and
    the console. *)
Definition report (sink : notify * list string) (fd : string * string)
  : notify * list string :=
  let n := S (x sink.1) in
  (Notify n (file sink.1 ++ [log_line fd.1 fd.2]) (closed sink.1),
   sink.2 ++ [progress_line n fd.1 fd.2]).

Definition log_update (filename : string) : logger * string :=
  (log1, filename +:+ " digest being updated").
Definition log_done (filename : string) : logger * string :=
  (log0, filename +:+ " digest calculated").

(** The sink as the workers see it: open, and its counter, log and console. *)
Definition sink_open (st : state) : Prop := closed (printer st) = false.
Definition sink_view (st : state) : notify * list string := (printer st, stdout st).
Definition sink_act (bufsize : N) (fs : filesystem) (a : string)
    (s : notify * list string) : notify * list string :=
  foldl report s (reported (outcome bufsize fs a)).

(** What holds of the [MapResult] and the state once the tasks [done]
    have had their turn, in that order: [g] gives the result of a task,
    [I] is kept by every task, and [act] is what a task does to the [view]
    of the state, which was [v0] at the start. *)
Definition pool_inv {A T V} (g : A → result (option T)) (I : state → Prop)
    (view : state → V) (act : A → V → V) (args : list A) (v0 : V)
    (done : list nat) (acc : map_result T * state) : Prop :=
  I acc.2
  ∧ length (value acc.1) = length args
  ∧ (∀ i a, args !! i = Some a →
       value acc.1 !! i = Some None ∨ ∃ v, g a = Ret v ∧ value acc.1 !! i = Some v)
  ∧ (failure acc.1 = None →
       aborted acc.1 = []
       ∧ view acc.2 = foldl (λ s a, act a s) v0 (omap (args !!.) done)
       ∧ ∀ i a, i ∈ done → args !! i = Some a →
           ∃ v, g a = Ret v ∧ value acc.1 !! i = Some v)
  ∧ (∀ e, failure acc.1 = Some e → ∃ a, a ∈ args ∧ g a = Raise e).

(** The state in which the tasks are handed to the pool: a new sink, and
    the launch recorded by [log0]. *)
Definition launched (st : state) : state :=
  State (Notify 0 [] false) (stdout st) (logging st ++ [(log0, "launching the Imaps")]).

(** The directory given to [os.walk] cannot be listed: it is missing, not
    a directory, or not readable. *)
Definition root_unavailable (fs : filesystem) (topdir : string) : Prop :=
  match lookup_dir fs topdir with
  | Some (Dir true _) => False
  | _ => True
  end.

(** The digest a worker gives for a file, when it gives one. *)
Definition digest_of (bufsize : N) (fs : filesystem) (a : string) : string :=
  match outcome bufsize fs a with
  | Ret (Some (_, d)) => d
  | _ => EmptyString
  end.

(** The console lines of [reports], numbered from [n]. *)
Definition progress_lines (n : nat) (reports : list (string * string)) : list string :=
  zip_with (λ k fd, progress_line k fd.1 fd.2) (seq n (length reports)) reports.

(** The two lines printed by [final] for a counter value. *)
Definition summary (n : nat) : list string :=
  [Fmt.NL; "Files Processed:" +:+ Fmt.TAB +:+ Fmt.zero_padded 6 n +:+ Fmt.NL].

(** ** Vocabulary for calls that overlap *)

(** Whatever happens between its steps, as long as [I] holds of the state
    at each of them, the thread keeps [I] and comes to the end [r]. *)
Fixpoint ends_with {R} (I : state → Prop) (r : result R) (t : thread R) : Prop :=
  match t with
  | Done v => r = Ret v
  | Step m k =>
      ∀ st, I st →
        I (m st).2
        ∧ match (m st).1 with
          | Ret x => ends_with I r (k x)
          | Raise e => r = Raise e
          end
  end.

(** The result of a batch whose tasks have the results [g]. *)
Fixpoint batch_result {A R} (g : A → result R) (chunk : list A) : result (list R) :=
  match chunk with
  | [] => Ret []
  | a :: chunk' =>
      match g a with
      | Raise e => Raise e
      | Ret v =>
          match batch_result g chunk' with
          | Raise e => Raise e
          | Ret vs => Ret (v :: vs)
          end
      end
  end.

(** A batch of the pool, against the tasks it was made of. *)
Definition batch_ok {A R} (I : state → Prop) (g : A → result R)
    (chunk : list A) (b : batch R) : Prop :=
  match b with
  | Queued t | Running _ t => ends_with I (batch_result g chunk) t
  | Delivered vs => batch_result g chunk = Ret vs
  | Failed => ∃ e, batch_result g chunk = Raise e
  end.

Definition failed {R} (b : batch R) : bool :=
  match b with Failed => true | _ => false end.
Definition pending {R} (b : batch R) : bool :=
  match b with Queued _ | Running _ _ => true | _ => false end.

(** The pool between two turns. *)
Definition pool_ok {A R} (I : state → Prop) (g : A → result R)
    (chunks : list (list A)) (acc : list (batch R) * option exn * state) : Prop :=
  I acc.2
  ∧ Forall2 (batch_ok I g) chunks acc.1.1
  ∧ (acc.1.2 = None → Forall (λ b, failed b = false) acc.1.1)
  ∧ (∀ e, acc.1.2 = Some e → ∃ a, a ∈ mjoin chunks ∧ g a = Raise e).

(** ** Example directory trees *)

Fixpoint assoc (p : string) (l : list (string * stream)) : option stream :=
  match l with
  | [] => None
  | (q, s) :: l' => if bool_decide (p = q) then Some s else assoc p l'
  end.

(** A file system holding one tree, at ["root"]; every log can be created. *)
Definition rooted (tree : node) (files : list (string * stream)) : filesystem :=
  Filesystem (λ p, if bool_decide (p = "root") then Some tree else None)
             (λ p, assoc p files) (λ _, true).

(** [a.txt] holds "hello", [b.txt] is empty, [sub/c.txt] holds "world". *)
Definition scenario : filesystem :=
  rooted (Dir true [("a.txt", File); ("b.txt", File);
                    ("sub", Dir true [("c.txt", File)])])
         [("root/a.txt", Stream (bytes_of_string "hello") false);
          ("root/b.txt", Stream [] false);
          ("root/sub/c.txt", Stream (bytes_of_string "world") false)].

(** [a.txt] holds "hello"; [b.txt] is listed but cannot be opened. *)
Definition one_unreadable : filesystem :=
  rooted (Dir true [("a.txt", File); ("b.txt", File)])
         [("root/a.txt", Stream (bytes_of_string "hello") false)].

(** [a.txt] opens, and the device fails after its five bytes. *)
Definition one_faulty : filesystem :=
  rooted (Dir true [("a.txt", File)])
         [("root/a.txt", Stream (bytes_of_string "hello") true)].

(** Nothing exists, not even the root. *)
Definition no_root : filesystem :=
  Filesystem (λ _, None) (λ _, None) (λ _, true).

Definition sha512_empty : string :=
  "cf83e1357eefb8bdf1542850d66d8007d620e4050b5715dc83f4a921d36ce9ce47d0d13c5d85f2b0ff8318d2877eec2f63b931bd47417a81a538327af927da3e".
Definition sha512_hello : string :=
  "9b71d224bd62f3785d96d46ad3ea3d73319bfbc2890caadae2dff72519673ca72323c3d99ba5c11d7c7acc6e14b8c5da0c4663475c2e5c3adef46f73bcdec043".
Definition sha512_world : string :=
  "11853df40f4b2b919d3815f64792e58d08663767a494bcbb38c0b2389d9140bbb170281b4a847be7757bde12c9cd0054ce3652d0ad3a1a0c92babb69798246ee".

(** ** Further vocabulary *)

(** The number of non-empty chunks in which a file of [len] bytes is read. *)
Definition chunks_needed (bufsize : N) (len : nat) : nat :=
  N.to_nat ((N.of_nat len + bufsize - 1) / bufsize).


(** Reading back the decimal number a line starts with. *)
Fixpoint leading_number_from (acc : N) (s : string) : N :=
  match s with
  | String c s' =>
      match Ascii.is_nat c with
      | Some v => leading_number_from (acc * 10 + N.of_nat v) s'
      | None => acc
      end
  | EmptyString => acc
  end.
Definition leading_number (s : string) : N := leading_number_from 0 s.

(** A name a directory listing can hold: not empty, and without ["/"]. *)
Definition name_ok (s : string) : bool :=
  negb (bool_decide (s = EmptyString))
  && bool_decide ("/"%char ∉ list_ascii_of_string s).

(** A tree as a file system has them: in every directory the names are
    distinct and are names. *)
Fixpoint tree_ok (n : node) : bool :=
  match n with
  | File => true
  | Dir _ entries =>
      bool_decide (NoDup (map fst entries))
      && forallb (λ e, name_ok e.1 && tree_ok e.2) entries
  end.

(** What [join] puts before a relative path: the directory, and a
    separator unless the directory is empty or already ends with one. *)
Definition with_sep (top : string) : string :=
  if bool_decide (top = EmptyString) || ends_with_sep top then top else top +:+ "/".

(** The files of a tree by their paths relative to its root, in the order
    of the walk. *)
Fixpoint relative_paths (n : node) : list string :=
  match n with
  | Dir true entries =>
      filenames entries
        ++ flat_map (λ e, match e.2 with
                          | File => []
                          | Dir _ _ => map (λ r, e.1 +:+ "/" +:+ r) (relative_paths e.2)
                          end) entries
  | _ => []
  end.

(** The first component of a relative path. *)
Fixpoint head_of (s : string) : string :=
  match s with
  | EmptyString => EmptyString
  | String c s' => if bool_decide (c = "/"%char) then EmptyString else String c (head_of s')
  end.

(** The files met by the walk of [n] from [top]. *)
Definition files_of (top : string) (n : node) : list string :=
  flat_map (λ '(path, dirs, files), map (join path) files) (walk top n).

(** ** Source: [spotdl/providers/provider_utils.py], [_sanitize_filename] *)

(** Strings are sequences of bytes; the characters handled here are ASCII,
    so the bytes of any other UTF-8 character pass through unchanged. *)
Fixpoint remove_chars (bad : list ascii) (s : string) : string :=
  match s with
  | EmptyString => EmptyString
  | String c s' =>
      if bool_decide (c ∈ bad) then remove_chars bad s'
      else String c (remove_chars bad s')
  end.

(** [s.replace(old, new)] for one-character [old] and [new]. *)
Fixpoint replace_char (old new : ascii) (s : string) : string :=
  match s with
  | EmptyString => EmptyString
  | String c s' =>
      String (if bool_decide (c = old) then new else c) (replace_char old new s')
  end.

(** The characters of ["/?\\*|<>"]. *)
Definition windows_disallowed : list ascii :=
  ["/"; "?"; "\"; "*"; "|"; "<"; ">"]%char.

Definition double_quote : ascii := "034"%char.

Definition _sanitize_filename (input_str : string) : string :=
  replace_char ":" "-" (replace_char double_quote "'" (remove_chars windows_disallowed input_str)).

(** Everything a sanitized name is free of. *)
Definition unsafe_chars : list ascii := windows_disallowed ++ [double_quote; ":"%char].

(** * Properties *)

(** ** The library models on known values *)

Example zero_padded_short : Fmt.zero_padded 6 3 = "000003".
Proof. reflexivity. Qed.

Example zero_padded_wide : Fmt.zero_padded 2 345 = "345".
Proof. reflexivity. Qed.

Example ljust_pads : Fmt.ljust 5 "ab" = "ab   ".
Proof. reflexivity. Qed.

Example ljust_keeps_long : Fmt.ljust 2 "abcd" = "abcd".
Proof. reflexivity. Qed.

Example join_values :
  join "root" "a.txt" = "root/a.txt" ∧ join "root/" "a.txt" = "root/a.txt"
  ∧ join "root" "/abs" = "/abs" ∧ join "" "a" = "a".
Proof. by split_and!. Qed.

Example sha512_abc :
  SHA512.hex (SHA512.sha512 (bytes_of_string "abc")) =
  "ddaf35a193617abacc417349ae20413112e6fa4e89a97ea20a9eeee64b55d39a2192992a274fc1a836ba3c23a3feebbd454d4423643ce80e2a9ac94fa54ca49f".
Proof. by vm_compute. Qed.

(** Two hundred bytes, more than one block, fed seven bytes at a time. *)
Example sha512_streamed :
  SHA512.hex (SHA512.digest
    (foldl SHA512.update SHA512.new
           (replicate 28 (replicate 7 "a"%byte) ++ [replicate 4 "a"%byte]))) =
  "4b11459c33f52a22ee8236782714c150a3b2c60994e9acee17fe68947a3e6789f31e7668394592da7bef827cddca88c4e6f86e4df7ed1ae6cba71f3e98faee9f"
  ∧ SHA512.hex (SHA512.sha512 (replicate 200 "a"%byte)) =
  "4b11459c33f52a22ee8236782714c150a3b2c60994e9acee17fe68947a3e6789f31e7668394592da7bef827cddca88c4e6f86e4df7ed1ae6cba71f3e98faee9f".
Proof. split; by vm_compute. Qed.

Example walk_scenario :
  allfiles scenario "root" = ["root/a.txt"; "root/b.txt"; "root/sub/c.txt"].
Proof. reflexivity. Qed.

(** Three files and two processes whose reports do not overlap: three
    keys with the reference hashes, three log lines, a summary of three. *)
Example scenario_run :
  let run := build_digest_map BUFSIZE 2 [0; 1; 1; 0]%nat scenario "root" "log.txt" fresh in
  run.1 = Ret (<["root/a.txt" := sha512_hello]>
               (<["root/b.txt" := sha512_empty]>
                (<["root/sub/c.txt" := sha512_world]> ∅)))
  ∧ length (file (printer run.2)) = 3%nat
  ∧ last (stdout run.2)
    = Some ("Files Processed:" +:+ Fmt.TAB +:+ "000003" +:+ Fmt.NL).
Proof. split_and!; vm_compute; reflexivity. Qed.

(** Two processes that never work at the same time leave the state one
    process leaves. *)
Example one_at_a_time :
  build_digest_map BUFSIZE 2 [] scenario "root" "log.txt" fresh
  = build_digest_map BUFSIZE 1 [] scenario "root" "log.txt" fresh.
Proof. vm_compute. reflexivity. Qed.

(** ** The streaming hash object agrees with the reference hash *)

Module SHA512_facts.
Import SHA512.

Lemma hash_blocks_short h bs : (length bs < 128)%nat → hash_blocks h bs = h.
Proof.
  intros Hlt. unfold hash_blocks. by rewrite Nat.div_small.
Qed.

Lemma nth_block_0 bs : nth_block bs 0 = take 128 bs.
Proof. unfold nth_block. by rewrite Nat.mul_0_r, drop_0. Qed.

Lemma nth_block_drop bs i : nth_block bs (S i) = nth_block (drop 128 bs) i.
Proof. unfold nth_block. rewrite drop_drop. do 2 f_equal. lia. Qed.

Lemma fold_blocks_shift bs (l : list nat) h :
  fold_left (λ h i, compress h (nth_block bs i)) (S <$> l) h
  = fold_left (λ h i, compress h (nth_block (drop 128 bs) i)) l h.
Proof.
  revert h. induction l as [|i l IH]; intros h.
  { rewrite fmap_nil. by cbn [fold_left]. }
  rewrite fmap_cons. cbn [fold_left]. rewrite IH. f_equal.
  f_equal. apply nth_block_drop.
Qed.

Lemma hash_blocks_step h bs :
  (128 ≤ length bs)%nat →
  hash_blocks h bs = hash_blocks (compress h (take 128 bs)) (drop 128 bs).
Proof.
  intros Hle. unfold hash_blocks.
  assert (length bs / 128 = S (length (drop 128 bs) / 128))%nat as ->.
  { rewrite length_drop.
    replace (length bs) with ((length bs - 128) + 1 * 128)%nat at 1 by lia.
    rewrite Nat.div_add by lia. lia. }
  rewrite <- cons_seq, <- fmap_S_seq. cbn [fold_left].
  rewrite fold_blocks_shift. by rewrite nth_block_0.
Qed.

Lemma absorb_hash_blocks h bs : (absorb h bs).1 = hash_blocks h bs.
Proof.
  funelim (absorb h bs).
  - rewrite H. symmetry. by apply hash_blocks_step.
  - symmetry. by apply hash_blocks_short.
Qed.

Lemma absorb_rest_short h bs : (length (absorb h bs).2 < 128)%nat.
Proof.
  funelim (absorb h bs); done.
Qed.

(** Absorbing a concatenation is absorbing the first part, then the
    leftover followed by the second part. *)
Lemma absorb_app h bs cs :
  absorb h (bs ++ cs) = absorb (absorb h bs).1 ((absorb h bs).2 ++ cs).
Proof.
  funelim (absorb h bs); [|done].
  rewrite <- H. rewrite (absorb_equation_1 h (bs ++ cs)).
  destruct (le_lt_dec 128 (length (bs ++ cs))) as [?|Hlt]; simpl.
  - rewrite take_app_le, drop_app_le by done. done.
  - rewrite length_app in Hlt. lia.
Qed.

Lemma fed_new : fed new [].
Proof. split; [|done]. by simp absorb. Qed.

Lemma fed_update o msg chunk : fed o msg → fed (update o chunk) (msg ++ chunk).
Proof.
  intros [Habs Hcount]. unfold fed, update.
  rewrite (absorb_app H0 msg), Habs. simpl.
  destruct (absorb (hstate o) (buffer o ++ chunk)) as [h rest]. simpl.
  split; [done|]. rewrite length_app. lia.
Qed.

Lemma fed_digest o msg : fed o msg → digest o = sha512 msg.
Proof.
  intros [Habs Hcount]. unfold digest, sha512.
  rewrite <- absorb_hash_blocks, (absorb_app H0 msg), Habs, Hcount. done.
Qed.

(** [m.update(a); m.update(b)] is [m.update(a + b)], for the digest. *)
Lemma digest_updates chunks :
  digest (foldl update new chunks) = sha512 (concat chunks).
Proof.
  apply fed_digest.
  assert (∀ o msg, fed o msg → fed (foldl update o chunks) (msg ++ concat chunks)) as Hgen.
  { induction chunks as [|c chunks IH]; intros o msg Hfed; simpl.
    - by rewrite app_nil_r.
    - rewrite app_assoc. by apply IH, fed_update. }
  apply (Hgen new [] fed_new).
Qed.

Lemma be_encode_length len z : length (be_encode len z) = len.
Proof. unfold be_encode. by rewrite length_map, length_seq. Qed.

Lemma regs_bytes_length h : length (regs_bytes h) = 64%nat.
Proof. unfold regs_bytes. by rewrite !length_app, !be_encode_length. Qed.

Lemma hex_length bs : String.length (hex bs) = (2 * length bs)%nat.
Proof. induction bs as [|b bs IH]; simpl; [done|]. rewrite IH. lia. Qed.

Lemma hex_lower bs : forallb is_lower_hex (list_ascii_of_string (hex bs)) = true.
Proof.
  induction bs as [|b bs IH]; simpl; [done|].
  rewrite IH, !andb_true_r. by destruct b.
Qed.

End SHA512_facts.

(** ** The sink *)

Lemma msPrint_open filename digest st :
  closed (printer st) = false →
  msPrint filename digest st =
    (Ret (), State (Notify (S (x (printer st)))
                           (file (printer st) ++ [log_line filename digest]) false)
                   (stdout st ++ [progress_line (S (x (printer st))) filename digest])
                   (logging st)).
Proof.
  intros Hopen. unfold msPrint, mbind, M_bind, incr_x, get_x, print, file_write.
  simpl. by rewrite Hopen.
Qed.

Lemma msPrint_closed filename digest st :
  closed (printer st) = true → (msPrint filename digest st).1 = Raise ValueError.
Proof.
  intros Hc. unfold msPrint, mbind, M_bind, incr_x, get_x, print, file_write.
  simpl. by rewrite Hc.
Qed.

Lemma final_eq st :
  final st =
    (Ret (), State (Notify (x (printer st)) (file (printer st)) true)
                   (stdout st ++ [Fmt.NL] ++
                      ["Files Processed:" +:+ Fmt.TAB +:+
                         Fmt.zero_padded 6 (x (printer st)) +:+ Fmt.NL])
                   (logging st)).
Proof.
  unfold final, mbind, M_bind, get_x, print, file_close. simpl.
  by rewrite <- app_assoc.
Qed.

(** ** The reading loop and the worker *)

Lemma take_bytes_app n l c r : take_bytes n l = (c, r) → c ++ r = l.
Proof.
  revert n c r. induction l as [|a l IH]; intros n c r; simpl.
  - by intros [= <- <-].
  - destruct (n =? 0)%N; [by intros [= <- <-]|].
    destruct (take_bytes (N.pred n) l) as [c' r'] eqn:E.
    intros [= <- <-]. simpl. by rewrite (IH _ _ _ E).
Qed.

Lemma take_bytes_nil n l r : (0 < n)%N → take_bytes n l = ([], r) → l = [].
Proof.
  intros Hn. destruct l as [|a l]; simpl; [done|].
  destruct (N.eqb_spec n 0); [lia|].
  by destruct (take_bytes (N.pred n) l).
Qed.

Lemma read_raise n f e f' : read n f = (Raise e, f') → e = OSError.
Proof.
  unfold read. destruct (take_bytes n (data f)).
  destruct (faulty f && _); by intros [= <-].
Qed.

Lemma read_readable n d :
  read n (Stream d false) =
    (Ret (take_bytes n d).1, Stream (take_bytes n d).2 false).
Proof. unfold read. simpl. by destruct (take_bytes n d). Qed.

Ltac use_read :=
  match goal with Hread : read _ _ = _ |- _ => rewrite ?Hread end.

Section worker.
Context (bufsize : N) (fs : filesystem) (filename : string).

Lemma read_loop_step f o st :
  read_loop bufsize filename f o st =
    match read bufsize f with
    | (Raise e, _) => (Raise e, st)
    | (Ret [], _) => (Ret o, (info log0 (filename +:+ " digest calculated") st).2)
    | (Ret (b :: chunk), f') =>
        read_loop bufsize filename f' (SHA512.update o (b :: chunk))
          (info log1 (filename +:+ " digest being updated") st).2
    end.
Proof. funelim (read_loop bufsize filename f o st); use_read; done. Qed.

(** The loop touches the loggers only. *)
Lemma read_loop_frame f o st :
  printer (read_loop bufsize filename f o st).2 = printer st
  ∧ stdout (read_loop bufsize filename f o st).2 = stdout st.
Proof. funelim (read_loop bufsize filename f o st); done. Qed.

Lemma read_loop_raise f o st e :
  (read_loop bufsize filename f o st).1 = Raise e → e = OSError.
Proof.
  funelim (read_loop bufsize filename f o st).
  - done.
  - match goal with IH : ∀ _, _ |- _ => apply IH end.
  - simpl. intros [= <-]. by eapply read_raise.
Qed.

(** Its result does not depend on the state it starts from. *)
Lemma read_loop_result f o st st' :
  (read_loop bufsize filename f o st).1 = (read_loop bufsize filename f o st').1.
Proof.
  revert st'. funelim (read_loop bufsize filename f o st); intros st';
    rewrite (read_loop_step _ _ st'); use_read; simpl; [done| |done].
  match goal with IH : ∀ _, _ |- _ => apply IH end.
Qed.

(** On a file that reads to its end, the loop feeds the whole contents to
    the hash object, one update per non-empty chunk. *)
Lemma read_loop_readable d o msg st :
  (0 < bufsize)%N →
  SHA512.fed o msg →
  ∃ o' k,
    read_loop bufsize filename (Stream d false) o st =
      (Ret o', State (printer st) (stdout st)
                     (logging st ++ replicate k (log_update filename)
                                 ++ [log_done filename]))
    ∧ SHA512.fed o' (msg ++ d)
    ∧ (d = [] → k = 0%nat).
Proof.
  intros Hpos. remember (length d) as n eqn:Hn.
  revert d o msg st Hn. induction n as [n IH] using lt_wf_ind.
  intros d o msg st -> Hfed.
  rewrite read_loop_step, read_readable.
  destruct (take_bytes bufsize d) as [c r] eqn:Htake. simpl.
  destruct c as [|b c].
  - apply take_bytes_nil in Htake as ->; [|done].
    exists o, 0%nat. rewrite app_nil_r. done.
  - pose proof (take_bytes_shrinks _ _ _ _ _ Htake) as Hlt.
    pose proof (take_bytes_app _ _ _ _ Htake) as Happ.
    destruct (IH _ Hlt r (SHA512.update o (b :: c)) (msg ++ b :: c)
                (info log1 (filename +:+ " digest being updated") st).2 eq_refl)
      as (o' & k & Heq & Hfed' & _).
    { by apply SHA512_facts.fed_update. }
    exists o', (S k). simpl in Heq. rewrite Heq. simpl. rewrite <- !app_assoc. simpl.
    split; [done|]. split; [|by intros ->].
    by rewrite <- app_assoc, Happ in Hfed'.
Qed.

(** A file that cannot be opened: [None], and nothing else happens. *)
Lemma compute_digest_unopenable st :
  open_rb fs filename = None →
  compute_digest bufsize fs filename st = (Ret None, st).
Proof. intros Hopen. unfold compute_digest. by rewrite Hopen. Qed.

(** A file that reads to its end, with the sink open. *)
Lemma compute_digest_readable d st :
  (0 < bufsize)%N →
  open_rb fs filename = Some (Stream d false) →
  closed (printer st) = false →
  ∃ k,
    compute_digest bufsize fs filename st =
      (Ret (Some (filename, SHA512.hex (SHA512.sha512 d))),
       State (Notify (S (x (printer st)))
                     (file (printer st)
                        ++ [log_line filename (SHA512.hex (SHA512.sha512 d))]) false)
             (stdout st ++ [progress_line (S (x (printer st))) filename
                                          (SHA512.hex (SHA512.sha512 d))])
             (logging st ++ replicate k (log_update filename) ++ [log_done filename]))
    ∧ (d = [] → k = 0%nat).
Proof.
  intros Hpos Hopen Hsink. unfold compute_digest. rewrite Hopen.
  destruct (read_loop_readable d SHA512.new [] st Hpos SHA512_facts.fed_new)
    as (o' & k & Heq & Hfed & Hk).
  exists k. split; [|done].
  unfold mbind, M_bind. rewrite Heq.
  rewrite (SHA512_facts.fed_digest _ _ Hfed).
  rewrite msPrint_open by done. done.
Qed.

(** The worker under an open sink: the sink stays open, the only
    exception is the I/O error of a read, the result is [outcome], and the
    sink records exactly what [reported] says. *)
Lemma compute_digest_open st :
  closed (printer st) = false →
  closed (printer (compute_digest bufsize fs filename st).2) = false
  ∧ (compute_digest bufsize fs filename st).1 = outcome bufsize fs filename
  ∧ (∀ e, outcome bufsize fs filename = Raise e → e = OSError)
  ∧ (∀ p d, outcome bufsize fs filename = Ret (Some (p, d)) → p = filename)
  ∧ (printer (compute_digest bufsize fs filename st).2,
     stdout (compute_digest bufsize fs filename st).2)
    = foldl report (printer st, stdout st)
            (reported (compute_digest bufsize fs filename st).1).
Proof.
  intros Hsink. unfold outcome, compute_digest.
  destruct (open_rb fs filename) as [f|]; simpl.
  2: { by repeat split. }
  unfold mbind, M_bind.
  pose proof (read_loop_result f SHA512.new st fresh) as Hres.
  pose proof (read_loop_frame f SHA512.new st) as [Hp Hs].
  pose proof (read_loop_frame f SHA512.new fresh) as [Hp2 _].
  pose proof (read_loop_raise f SHA512.new fresh) as Hraise.
  destruct (read_loop bufsize filename f SHA512.new st) as [r1 st1].
  destruct (read_loop bufsize filename f SHA512.new fresh) as [r2 st2].
  simpl in *. subst r2. destruct r1 as [o|e].
  - rewrite !msPrint_open by (by rewrite ?Hp, ?Hp2). simpl.
    rewrite Hp, Hs. unfold report. simpl. rewrite Hsink.
    repeat split; try done. by intros p d [= <- _].
  - simpl. rewrite Hp, Hs. repeat split; auto; [|done].
    intros e0 [= <-]. by apply Hraise.
Qed.

End worker.

(** ** Threads *)

Lemma bind_M {X Y} (m : M X) (k : X → M Y) st :
  (m ≫= k) st = match m st with
                | (Ret x, st') => k x st'
                | (Raise e, st') => (Raise e, st')
                end.
Proof. reflexivity. Qed.

Lemma run_bind {R S} (t : thread R) (k : R → thread S) st :
  run (t ≫= k) st = (run t ≫= λ v, run (k v)) st.
Proof.
  revert st. induction t as [v|X m k' IH]; intros st; [reflexivity|].
  change (Step m k' ≫= k) with (Step m (λ x, k' x ≫= k)).
  cbn [run]. rewrite !bind_M. destruct (m st) as [[x|e] st']; [|done].
  by rewrite IH, bind_M.
Qed.

Lemma msPrint_steps_run filename digest st :
  run (msPrint_steps filename digest) st = msPrint filename digest st.
Proof.
  unfold msPrint_steps, msPrint. cbn. unfold mbind, M_bind, get_x, set_x, incr_x, print.
  cbn. unfold file_write. cbn. by destruct (closed (printer st)).
Qed.

Lemma read_loop_steps_run bufsize filename f o st :
  run (read_loop_steps bufsize filename f o) st = read_loop bufsize filename f o st.
Proof.
  revert st. funelim (read_loop_steps bufsize filename f o); intros st;
    rewrite read_loop_step; use_read; [done| |done].
  cbn [run]. rewrite bind_M. cbn.
  match goal with IH : () → _ |- _ => apply (IH ()) end.
Qed.

Lemma compute_digest_steps_run bufsize fs filename st :
  run (compute_digest_steps bufsize fs filename) st = compute_digest bufsize fs filename st.
Proof.
  unfold compute_digest_steps, compute_digest.
  destruct (open_rb fs filename) as [f|]; [|reflexivity].
  rewrite run_bind, !bind_M, read_loop_steps_run.
  destruct (read_loop _ _ _ _ _) as [[o|e] st1]; [|done].
  rewrite run_bind, !bind_M, msPrint_steps_run.
  by destruct (msPrint _ _ _) as [[[]|e] st2].
Qed.

(** ** Threads under an invariant *)

Section threads.
Context (I : state → Prop).

Lemma ends_with_bind {R S} (r : result R) (r' : result S) (t : thread R)
    (k : R → thread S) :
  ends_with I r t →
  match r with
  | Ret v => ends_with I r' (k v)
  | Raise e => r' = Raise e
  end →
  ends_with I r' (t ≫= k).
Proof.
  induction t as [v|X m k' IH]; intros Ht Hk.
  - simpl in Ht. subst r. exact Hk.
  - change (Step m k' ≫= k) with (Step m (λ x, k' x ≫= k)).
    intros st Hst. destruct (Ht st Hst) as [HI Hnext]. split; [done|].
    destruct (m st).1 as [x|e]; [by apply IH|]. by subst r.
Qed.

Lemma run_ends_with {R} (r : result R) (t : thread R) st :
  ends_with I r t → I st → I (run t st).2 ∧ (run t st).1 = r.
Proof.
  revert st. induction t as [v|X m k IH]; intros st Ht Hst.
  - simpl in Ht. by subst r.
  - cbn [run]. rewrite bind_M. destruct (Ht st Hst) as [HI Hnext].
    destruct (m st) as [[x|e] st']; simpl in *; [by apply IH|]. by subst r.
Qed.

Lemma mapstar_ends_with {A R} (f : A → thread R) (g : A → result R) chunk :
  (∀ a, ends_with I (g a) (f a)) →
  ends_with I (batch_result g chunk) (mapstar f chunk).
Proof.
  intros Hf. induction chunk as [|a chunk IH]; [done|].
  cbn [mapstar batch_result]. eapply ends_with_bind; [apply Hf|].
  destruct (g a) as [v|e]; [|done].
  eapply ends_with_bind; [apply IH|].
  by destruct (batch_result g chunk).
Qed.

End threads.

(** ** Several worker processes *)

Lemma position_Some {B} (p : B → bool) l j :
  position p l = Some j → ∃ b, l !! j = Some b ∧ p b = true.
Proof.
  revert j. induction l as [|b l IH]; intros j; simpl; [done|].
  destruct (p b) eqn:Hp.
  - intros [= <-]. eauto.
  - destruct (position p l) as [j'|]; [|done]. intros [= <-].
    destruct (IH j' eq_refl) as (b' & ? & ?). eauto.
Qed.

Lemma batch_result_Ret {A R} (g : A → result R) chunk vs :
  batch_result g chunk = Ret vs → Forall2 (λ a v, g a = Ret v) chunk vs.
Proof.
  revert vs. induction chunk as [|a chunk IH]; intros vs; simpl.
  - intros [= <-]. constructor.
  - destruct (g a) as [v|e] eqn:Ha; [|done].
    destruct (batch_result g chunk) as [vs'|e]; [|done].
    intros [= <-]. constructor; [done|by apply IH].
Qed.

Lemma batch_result_Raise {A R} (g : A → result R) chunk e :
  batch_result g chunk = Raise e → ∃ a, a ∈ chunk ∧ g a = Raise e.
Proof.
  induction chunk as [|a chunk IH]; simpl; [done|].
  destruct (g a) as [v|e'] eqn:Ha.
  - destruct (batch_result g chunk) as [vs'|e']; [done|].
    intros [= ->]. destruct (IH eq_refl) as (b & Hb & Hg).
    exists b. split; [by right|done].
  - intros [= ->]. exists a. split; [by left|done].
Qed.

Lemma get_tasks_concat {A} (fuel size : nat) (it : list A) :
  (length it ≤ fuel)%nat → (it = [] ∨ 1 ≤ size)%nat →
  mjoin (get_tasks fuel size it) = it.
Proof.
  revert it. induction fuel as [|fuel IH]; intros it Hlen Hsize.
  - destruct it; [done|simpl in Hlen; lia].
  - simpl. destruct it as [|a it]; [by rewrite take_nil|].
    destruct Hsize as [|Hsize]; [done|].
    destruct size as [|size]; [lia|].
    cbn [take]. cbn [mjoin list_join]. rewrite IH.
    + cbn [drop]. by rewrite <- app_comm_cons, take_drop.
    + cbn [drop]. rewrite length_drop. simpl in Hlen. lia.
    + right. lia.
Qed.

Lemma chunksize_pos len processes :
  (len ≠ 0 → 1 ≤ chunksize len processes)%nat.
Proof.
  intros Hlen. unfold chunksize. rewrite bool_decide_eq_false_2 by done.
  case_bool_decide as Hmod; [|lia].
  pose proof (Nat.div_mod_eq len (processes * 4)) as Heq.
  rewrite Hmod in Heq. destruct (len / (processes * 4))%nat; lia.
Qed.

Section pool_of_several.
Context {A R : Type} (I : state → Prop) (g : A → result R) (chunks : list (list A)).

Lemma pool_ok_insert bs fail st st' j c b fail' :
  pool_ok I g chunks (bs, fail, st) →
  chunks !! j = Some c →
  I st' →
  batch_ok I g c b →
  (fail' = fail ∧ failed b = false
   ∨ ∃ e, fail' = first_failure fail e ∧ batch_result g c = Raise e) →
  pool_ok I g chunks (<[j:=b]> bs, fail', st').
Proof.
  intros (_ & HF & Hnone & Hsome) Hc HI Hb Hfail.
  split_and!; cbn [fst snd] in *.
  - done.
  - rewrite <- (list_insert_id chunks j c Hc). by apply Forall2_insert.
  - intros ->. destruct Hfail as [[<- Hnf]|(e & Hf & _)].
    + apply Forall_insert; [by apply Hnone|done].
    + by destruct fail.
  - intros e Hfe. destruct Hfail as [[-> _]|(e' & -> & Hraise)]; [by apply Hsome|].
    destruct fail as [e0|]; simpl in Hfe.
    + by apply Hsome.
    + injection Hfe as ->. destruct (batch_result_Raise _ _ _ Hraise) as (a & Ha & Hg).
      exists a. split; [|done]. apply list_elem_of_join. exists c.
      split; [done|]. by eapply list_elem_of_lookup_2.
Qed.

Lemma turn_ok acc w : pool_ok I g chunks acc → pool_ok I g chunks (turn acc w).
Proof.
  destruct acc as [[bs fail] st]. intros Hok.
  pose proof Hok as (HI & HF & _). cbn [fst snd] in HI, HF.
  unfold turn. destruct (position (run_by w) bs) as [j|] eqn:Hpos.
  - destruct (bs !! j) as [[t|w' [vs|X m k]|vs|]|] eqn:Hj; try done.
    + destruct (Forall2_lookup_r _ _ _ _ _ HF Hj) as (c & Hc & Hb).
      eapply pool_ok_insert; eauto.
    + destruct (Forall2_lookup_r _ _ _ _ _ HF Hj) as (c & Hc & Hb).
      destruct (Hb st HI) as [HI' Hnext].
      destruct (m st) as [[x|e] st']; cbn [fst snd] in *.
      * eapply pool_ok_insert; eauto.
      * eapply pool_ok_insert; eauto. simpl. eauto.
  - destruct (position queued bs) as [j|]; [|done].
    destruct (bs !! j) as [[t|w' t|vs|]|] eqn:Hj; try done.
    destruct (Forall2_lookup_r _ _ _ _ _ HF Hj) as (c & Hc & Hb).
    eapply pool_ok_insert; eauto.
Qed.

Lemma turns_ok sched acc :
  pool_ok I g chunks acc → pool_ok I g chunks (fold_left turn sched acc).
Proof.
  revert acc. induction sched as [|w sched IH]; intros acc Hok; [done|].
  simpl. by apply IH, turn_ok.
Qed.

End pool_of_several.

Section finish.
Context {A R : Type} (I : state → Prop) (g : A → result R).

Lemma finish_spec chunks (bs : list (batch R)) fail st :
  I st → Forall2 (batch_ok I g) chunks bs →
  I (finish bs fail st).2
  ∧ Forall2 (batch_ok I g) chunks (finish bs fail st).1.1
  ∧ Forall (λ b, pending b = false) (finish bs fail st).1.1
  ∧ ((finish bs fail st).1.2 = None →
       fail = None
       ∧ (Forall (λ b, failed b = false) bs →
          Forall (λ b, failed b = false) (finish bs fail st).1.1))
  ∧ (∀ e, (finish bs fail st).1.2 = Some e →
       fail = Some e ∨ ∃ a, a ∈ mjoin chunks ∧ g a = Raise e).
Proof.
  intros HI HF. revert fail st HI.
  induction HF as [|c b chunks bs Hb _ IH]; intros fail st HI.
  { simpl. split_and!; auto. }
  cbn [finish].
  set (one := match b with
              | Queued t | Running _ t =>
                  match run t st with
                  | (Ret vs, st') => (Delivered vs, fail, st')
                  | (Raise e, st') => (Failed, first_failure fail e, st')
                  end
              | _ => (b, fail, st)
              end).
  assert (I one.2 ∧ batch_ok I g c one.1.1 ∧ pending one.1.1 = false
          ∧ (one.1.2 = fail ∧ (failed b = false → failed one.1.1 = false)
             ∨ ∃ e, one.1.2 = first_failure fail e ∧ batch_result g c = Raise e))
    as (HI1 & Hb1 & Hp1 & Hf1).
  { subst one.
    assert (∀ t, ends_with I (batch_result g c) t →
              let one := match run t st with
                         | (Ret vs, st') => (Delivered vs, fail, st')
                         | (Raise e, st') => (Failed, first_failure fail e, st')
                         end in
              I one.2 ∧ batch_ok I g c one.1.1 ∧ pending one.1.1 = false
              ∧ (one.1.2 = fail ∧ (failed b = false → failed one.1.1 = false)
                 ∨ ∃ e, one.1.2 = first_failure fail e ∧ batch_result g c = Raise e))
      as Hrun.
    { intros t Ht. destruct (run_ends_with I _ t st Ht HI) as [HI' Hr].
      destruct (run t st) as [[vs|e] st']; cbn [fst snd] in *.
      - split_and!; [done|by symmetry|done|by left].
      - split_and!; [done|by exists e|done|right; by exists e]. }
    destruct b as [t|w t|vs|]; cbn [batch_ok] in Hb.
    - by apply Hrun.
    - by apply Hrun.
    - split_and!; [done|done|done|by left].
    - split_and!; [done|done|done|by left]. }
  destruct one as [[b1 fail1] st1]. cbn [fst snd] in *.
  specialize (IH fail1 st1 HI1). destruct (finish bs fail1 st1) as [[r fail2] st2].
  cbn [fst snd] in *. destruct IH as (HI2 & HF2 & Hp2 & Hnone & Hsome).
  split_and!.
  - done.
  - by constructor.
  - by constructor.
  - intros Hf2. destruct (Hnone Hf2) as [-> Hnf].
    destruct Hf1 as [[<- Hkeep]|(e & Hff & _)]; [|by destruct fail].
    split; [done|]. intros Hall. apply Forall_cons in Hall as [Hb0 Hall].
    constructor; auto.
  - intros e Hf2. destruct (Hsome e Hf2) as [->|(a & Ha & Hg)].
    + destruct Hf1 as [[<- _]|(e' & Hff & Hraise)]; [by left|].
      destruct fail as [e0|]; simpl in Hff; [left; congruence|].
      injection Hff as ->. right.
      destruct (batch_result_Raise _ _ _ Hraise) as (a & Ha & Hg).
      exists a. split; [|done]. cbn [mjoin list_join]. apply elem_of_app. by left.
    + right. exists a. split; [|done]. cbn [mjoin list_join]. apply elem_of_app. by right.
Qed.

Lemma delivered_all chunks (bs : list (batch R)) :
  Forall2 (batch_ok I g) chunks bs →
  Forall (λ b, pending b = false) bs →
  Forall (λ b, failed b = false) bs →
  Forall2 (λ a v, g a = Ret v) (mjoin chunks) (bs ≫= delivered).
Proof.
  induction 1 as [|c b chunks bs Hb _ IH]; intros Hp Hf; [constructor|].
  apply Forall_cons in Hp as [Hp0 Hp], Hf as [Hf0 Hf].
  cbn [mjoin list_join]. rewrite bind_cons. apply Forall2_app; [|by apply IH].
  destruct b; try done. by apply batch_result_Ret.
Qed.

End finish.

(** [starmap] with several processes, for tasks whose steps keep [I] and
    whose results are given by [g]: whatever the schedule, either a task
    raises and its exception is raised, or the results are those of the
    tasks, in their order. *)
Lemma starmap_several {A T} (I : state → Prop) processes sched
    (f : A → thread (option T)) (h : A → result (option T)) args st :
  processes ≠ 1%nat →
  (∀ a, ends_with I (h a) (f a)) →
  I st →
  I (starmap processes sched f args st).2
  ∧ ((∃ e a, (starmap processes sched f args st).1 = Raise e
             ∧ a ∈ args ∧ h a = Raise e)
     ∨ ∃ vs, (starmap processes sched f args st).1 = Ret vs
             ∧ Forall2 (λ a v, h a = Ret v) args vs).
Proof.
  intros Hp Hf HI. unfold starmap. rewrite bool_decide_eq_false_2 by done.
  set (chunks := get_tasks (length args) (chunksize (length args) processes) args).
  assert (mjoin chunks = args) as Hjoin.
  { apply get_tasks_concat; [done|]. destruct args; [by left|right].
    by apply chunksize_pos. }
  assert (pool_ok I h chunks
            ((λ chunk, Queued (mapstar f chunk)) <$> chunks, None, st)) as Hok.
  { split_and!; cbn [fst snd]; [done| | |done].
    - apply Forall2_fmap_r, Forall_Forall2_diag, Forall_forall. intros c _.
      by apply mapstar_ends_with.
    - intros _. by apply Forall_fmap, Forall_forall. }
  apply (turns_ok I h chunks sched) in Hok.
  destruct (fold_left turn sched _) as [[bs1 fail1] st1].
  destruct Hok as (HI1 & HF1 & Hnone1 & Hsome1). cbn [fst snd] in *.
  destruct (finish_spec I h chunks bs1 fail1 st1 HI1 HF1) as (HI2 & HF2 & Hp2 & Hnone2 & Hsome2).
  destruct (finish bs1 fail1 st1) as [[bs2 fail2] st2]. cbn [fst snd] in *.
  destruct fail2 as [e|]; cbn [fst snd].
  - split; [done|]. left. exists e.
    destruct (Hsome2 e eq_refl) as [->|(a & Ha & Hg)].
    + destruct (Hsome1 e eq_refl) as (a & Ha & Hg). exists a. by rewrite <- Hjoin.
    + exists a. by rewrite <- Hjoin.
  - split; [done|]. right. eexists. split; [done|].
    destruct (Hnone2 eq_refl) as [-> Hnf]. rewrite <- Hjoin.
    eapply delivered_all; eauto.
Qed.

(** ** The worker among other workers *)

Lemma read_loop_steps_ends (I : state → Prop) bufsize filename f o st0 :
  (∀ l msg st, I st → I (info l msg st).2) →
  ends_with I (run (read_loop_steps bufsize filename f o) st0).1
            (read_loop_steps bufsize filename f o).
Proof.
  intros Hinfo. revert st0.
  funelim (read_loop_steps bufsize filename f o); intros st0.
  - intros st Hst. split; [by apply Hinfo|reflexivity].
  - intros st Hst. split; [by apply Hinfo|].
    match goal with
    | IH : () → _ |- _ =>
        exact (IH () I Hinfo (info log1 (filename +:+ " digest being updated") st0).2)
    end.
  - intros st Hst. by split.
Qed.

Lemma msPrint_steps_ends filename digest :
  ends_with sink_open (Ret ()) (msPrint_steps filename digest).
Proof.
  unfold sink_open.
  intros st1 H1. split; [done|].
  intros st2 H2. split; [done|].
  intros st3 H3. split; [done|].
  intros st4 H4. split; [done|].
  intros st5 H5. unfold file_write. rewrite H5. by split.
Qed.

(** Whatever the other workers do in between, the worker keeps the sink
    open and comes to the result it has when left alone. *)
Lemma compute_digest_steps_ends bufsize fs filename :
  ends_with sink_open (outcome bufsize fs filename)
            (compute_digest_steps bufsize fs filename).
Proof.
  unfold outcome. rewrite <- compute_digest_steps_run.
  unfold compute_digest_steps. destruct (open_rb fs filename) as [f|]; [|done].
  eapply ends_with_bind.
  { by apply (read_loop_steps_ends _ _ _ _ _ fresh). }
  rewrite run_bind, bind_M.
  pose proof (read_loop_frame bufsize filename f SHA512.new fresh) as [Hp _].
  rewrite <- read_loop_steps_run in Hp.
  destruct (run (read_loop_steps _ _ _ _) fresh) as [[o|e] st1]; [|done].
  cbn [fst snd] in *.
  eapply ends_with_bind; [apply msPrint_steps_ends|].
  rewrite run_bind, bind_M, msPrint_steps_run, msPrint_open; [done|].
  by rewrite Hp.
Qed.

(** ** The pool *)

Section pool.
Context {A T V : Type}.
Context (f : A → M (option T)) (g : A → result (option T)).
Context (I : state → Prop) (view : state → V) (act : A → V → V).
Hypothesis f_spec : ∀ a st,
  I st → I (f a st).2 ∧ (f a st).1 = g a ∧ view (f a st).2 = act a (view st).
Context (args : list A) (csize : nat) (v0 : V).

Lemma pool_step_inv done acc i :
  pool_inv g I view act args v0 done acc →
  pool_inv g I view act args v0 (done ++ [i]) (pool_step f args csize acc i).
Proof.
  destruct acc as [r st]. intros (HI & Hlen & Hslot & Hok & Hfail).
  unfold pool_step. destruct (args !! i) as [a|] eqn:Hi.
  2: { split_and!; try done. intros Hnone.
       destruct (Hok Hnone) as (Hab & Hview & Hdone). split_and!; [done| |].
       - rewrite omap_app. simpl. rewrite Hi. simpl. by rewrite app_nil_r.
       - intros j b [Hj|Hj%list_elem_of_singleton]%elem_of_app Hb; [eauto|].
         congruence. }
  case_bool_decide as Hin.
  { split_and!; try done. intros Hnone.
    destruct (Hok Hnone) as (Hab & _). simpl in *. rewrite Hab in Hin.
    by apply elem_of_nil in Hin. }
  destruct (f_spec a st HI) as (HI' & Hres & Hview').
  destruct (f a st) as [[v|e] st']; simpl in *.
  - assert (i < length (value r))%nat as Hlt.
    { rewrite Hlen. by eapply lookup_lt_Some. }
    split_and!; simpl; try done.
    + by rewrite length_insert.
    + intros j b Hb. destruct (decide (j = i)) as [->|Hne].
      * right. exists v. rewrite list_lookup_insert_eq by done.
        split; congruence.
      * rewrite list_lookup_insert_ne by done. eauto.
    + intros Hnone. destruct (Hok Hnone) as (Hab & Hview & Hdone).
      split_and!; [done| |].
      * rewrite omap_app, foldl_app. simpl. rewrite Hi. simpl. congruence.
      * intros j b Hj Hb. destruct (decide (j = i)) as [->|Hne].
        -- exists v. rewrite list_lookup_insert_eq by done. split; congruence.
        -- rewrite list_lookup_insert_ne by done.
           apply elem_of_app in Hj as [Hj|Hj%list_elem_of_singleton]; [eauto|done].
  - split_and!; simpl; try done.
    + by destruct (failure r).
    + intros e'. destruct (failure r) as [e0|] eqn:Hf.
      * intros [= <-]. eauto.
      * intros [= <-]. exists a. split; [|done]. by eapply list_elem_of_lookup_2.
Qed.

Lemma pool_fold_inv order done acc :
  pool_inv g I view act args v0 done acc →
  pool_inv g I view act args v0 (done ++ order)
           (fold_left (pool_step f args csize) order acc).
Proof.
  revert done acc. induction order as [|i order IH]; intros done acc Hinv; simpl.
  - by rewrite app_nil_r.
  - rewrite (assoc_L (++) done [i] order : done ++ i :: order = (done ++ [i]) ++ order).
    by apply IH, pool_step_inv.
Qed.

Lemma pool_init_inv st :
  I st → view st = v0 →
  pool_inv g I view act args v0 []
           (MapResult (replicate (length args) None) None [], st).
Proof.
  intros HI Hv. split_and!; simpl; try done.
  - by rewrite length_replicate.
  - intros i a Hi. left. apply lookup_replicate_2. by eapply lookup_lt_Some.
  - intros _. split_and!; [done|done|]. by intros i a Hi%elem_of_nil.
Qed.

End pool.

Lemma pool_fold_nil {A T} (f : A → M (option T)) csize order acc :
  fold_left (pool_step f [] csize) order acc = acc.
Proof.
  induction order as [|i order IH]; simpl; [done|].
  destruct acc as [r st]. unfold pool_step at 2. by rewrite lookup_nil.
Qed.

Lemma omap_lookup_seq {A} (l1 l2 : list A) :
  omap ((l1 ++ l2) !!.) (seq (length l1) (length l2)) = l2.
Proof.
  revert l1. induction l2 as [|a l2 IH]; intros l1; [done|].
  simpl. rewrite list_lookup_middle by done. simpl. f_equal.
  specialize (IH (l1 ++ [a])). rewrite <- app_assoc, length_app in IH. simpl in IH.
  by rewrite Nat.add_1_r in IH.
Qed.

Lemma omap_lookup_all {A} (l : list A) : omap (l !!.) (seq 0 (length l)) = l.
Proof. apply (omap_lookup_seq [] l). Qed.

Lemma turns_nil {R} sched fail st :
  fold_left (@turn R) sched ([], fail, st) = ([], fail, st).
Proof. by induction sched. Qed.

Lemma dict_update_None l m : None ∈ l → dict_update l m = Raise TypeError.
Proof.
  revert m. induction l as [|[[k v]|] l IH]; intros m Hin; simpl.
  - by apply elem_of_nil in Hin.
  - apply elem_of_cons in Hin as [?|Hin]; [done|]. by apply IH.
  - done.
Qed.

Lemma dict_update_Some (kvs : list (string * string)) (m : gmap string string) :
  dict_update (Some <$> kvs) m = Ret (foldl (λ m kv, <[kv.1:=kv.2]> m) m kvs).
Proof.
  revert m. induction kvs as [|[k v] kvs IH]; intros m; [done|].
  rewrite fmap_cons. simpl. by rewrite IH.
Qed.

(** Every key inserted by [dict] maps to the digest of that key. *)
Lemma dict_lookup (h : string → string) (keys : list string)
    (m : gmap string string) (k : string) :
  foldl (λ m kv, <[kv.1:=kv.2]> m) m ((λ a, (a, h a)) <$> keys) !! k
  = if bool_decide (k ∈ keys) then Some (h k) else m !! k.
Proof.
  revert m. induction keys as [|a keys IH]; intros m; [done|].
  rewrite fmap_cons. simpl. rewrite IH. repeat case_bool_decide; try done.
  - set_solver.
  - apply elem_of_cons in H0 as [->|?]; [|done]. by rewrite lookup_insert_eq.
  - rewrite lookup_insert_ne; [done|]. set_solver.
Qed.

Lemma report_all (reports : list (string * string)) n fl c out :
  foldl report (Notify n fl c, out) reports
  = (Notify (n + length reports) (fl ++ ((λ fd, log_line fd.1 fd.2) <$> reports)) c,
     out ++ zip_with (λ k fd, progress_line k fd.1 fd.2)
                     (seq (S n) (length reports)) reports).
Proof.
  revert n fl out. induction reports as [|fd reports IH]; intros n fl out.
  - simpl. by rewrite Nat.add_0_r, !app_nil_r.
  - cbn [foldl]. unfold report at 2. cbn [fst snd x file closed].
    rewrite IH. rewrite fmap_cons. cbn [length seq zip_with].
    rewrite <- !app_assoc. do 2 f_equal. lia.
Qed.

Section run.
Context (bufsize : N) (fs : filesystem).

Lemma worker_spec a st :
  sink_open st →
  sink_open (run (compute_digest_steps bufsize fs a) st).2
  ∧ (run (compute_digest_steps bufsize fs a) st).1 = outcome bufsize fs a
  ∧ sink_view (run (compute_digest_steps bufsize fs a) st).2
    = sink_act bufsize fs a (sink_view st).
Proof.
  intros Hopen. rewrite compute_digest_steps_run.
  destruct (compute_digest_open bufsize fs a st Hopen) as (H1 & H2 & _ & _ & H5).
  split_and!; [done|done|]. unfold sink_view, sink_act. by rewrite H5, H2.
Qed.

(** [starmap] over the workers of a pool of one process, from a state
    whose sink is open. *)
Lemma starmap_one_process sched args st :
  sink_open st →
  ∃ r st',
    starmap 1 sched (compute_digest_steps bufsize fs) args st =
      (match failure r with Some e => Raise e | None => Ret (value r) end, st')
    ∧ pool_inv (outcome bufsize fs) sink_open sink_view (sink_act bufsize fs) args
        (printer st, stdout st) (seq 0 (length args)) (r, st').
Proof.
  intros Hopen. unfold starmap. rewrite bool_decide_eq_true_2 by done.
  pose proof (pool_fold_inv (λ a, run (compute_digest_steps bufsize fs a))
    (outcome bufsize fs)
    sink_open sink_view (sink_act bufsize fs) worker_spec args
    (chunksize (length args) 1) (printer st, stdout st)
    (seq 0 (length args)) []
    _ (pool_init_inv _ _ _ _ _ _ _ Hopen eq_refl)) as Hinv.
  simpl in Hinv.
  destruct (fold_left _ _ _) as [r st'].
  exists r, st'. split; [|done]. by destruct (failure r).
Qed.

(** Whatever the pool size and the schedule: either some worker raises
    and [starmap] raises [OSError], or the results are the outcomes of the
    tasks, in task order; the sink is still open. *)
Lemma starmap_complete processes sched args st :
  sink_open st →
  let res := starmap processes sched (compute_digest_steps bufsize fs) args st in
  (res.1 = Raise OSError ∧ ∃ a e, a ∈ args ∧ outcome bufsize fs a = Raise e)
  ∨ (∃ vs, res.1 = Ret vs
      ∧ Forall2 (λ a v, outcome bufsize fs a = Ret v) args vs
      ∧ sink_open res.2).
Proof.
  intros Hopen. cbn zeta.
  assert (∀ a e, outcome bufsize fs a = Raise e → e = OSError) as Hos.
  { intros a e. by destruct (compute_digest_open bufsize fs a fresh eq_refl)
      as (_ & _ & Hos & _); apply Hos. }
  destruct (decide (processes = 1%nat)) as [->|Hp].
  - destruct (starmap_one_process sched args st Hopen)
      as (r & st' & -> & HI & Hlen & Hslot & Hok & Hfail).
    simpl in *. destruct (failure r) as [e|] eqn:Hf.
    + left. destruct (Hfail e eq_refl) as (a & Ha & Hraise).
      rewrite (Hos _ _ Hraise). eauto.
    + right. destruct (Hok eq_refl) as (_ & Hview & Hdone).
      exists (value r). split_and!; [done| |done].
      apply Forall2_same_length_lookup. split; [done|].
      intros i a v Ha Hv.
      destruct (Hdone i a) as (v' & Hg & Hv'); [|done|congruence].
      apply elem_of_seq. apply lookup_lt_Some in Ha. lia.
  - destruct (starmap_several sink_open processes sched
                (compute_digest_steps bufsize fs) (outcome bufsize fs) args st Hp
                (compute_digest_steps_ends bufsize fs) Hopen)
      as (HI & [(e & a & -> & Ha & Hraise)|(vs & -> & HF)]).
    + left. rewrite (Hos _ _ Hraise). eauto.
    + right. eauto.
Qed.

(** With one process the sink has seen the tasks in their order. *)
Lemma starmap_in_order sched args st vs st' :
  sink_open st →
  starmap 1 sched (compute_digest_steps bufsize fs) args st = (Ret vs, st') →
  sink_view st'
  = foldl (λ s a, sink_act bufsize fs a s) (printer st, stdout st) args.
Proof.
  intros Hopen Hrun.
  destruct (starmap_one_process sched args st Hopen)
    as (r & st2 & Heq & HI & Hlen & Hslot & Hok & Hfail).
  rewrite Heq in Hrun. simpl in *. destruct (failure r) as [e|] eqn:Hf; [done|].
  injection Hrun as _ <-. destruct (Hok eq_refl) as (_ & Hview & _).
  by rewrite omap_lookup_all in Hview.
Qed.

End run.

(** ** The driver *)

Lemma build_digest_map_unfold bufsize processes sched fs topdir fname st :
  build_digest_map bufsize processes sched fs topdir fname st =
    if bool_decide (processes < 1)%nat then (Raise ValueError, st)
    else if open_w fs fname then
      match starmap processes sched (compute_digest_steps bufsize fs)
                    (allfiles fs topdir) (launched st) with
      | (Raise e, st2) => (Raise e, st2)
      | (Ret results, st2) =>
          match dict results with
          | Raise e => (Raise e, st2)
          | Ret m => (Ret m, (final st2).2)
          end
      end
    else (Raise RemoteError, st).
Proof.
  unfold build_digest_map, Pool, notify_init, info, lift, launched.
  unfold mbind, M_bind, mret, M_ret.
  case_bool_decide; [done|]. destruct (open_w fs fname); [|done].
  destruct (starmap _ _ _ _ _) as [[results|e] st2]; [|done].
  destruct (dict results); [|done]. by rewrite final_eq.
Qed.

Lemma launched_open st : sink_open (launched st).
Proof. done. Qed.

Lemma walk_unavailable fs topdir :
  root_unavailable fs topdir → allfiles fs topdir = [].
Proof.
  unfold root_unavailable, allfiles, os_walk.
  destruct (lookup_dir fs topdir) as [[|[] entries]|]; done.
Qed.

Lemma Forall2_outcome_eq {A B} (g : A → result B) (l : list A) (k1 k2 : list B) :
  Forall2 (λ a v, g a = Ret v) l k1 → Forall2 (λ a v, g a = Ret v) l k2 → k1 = k2.
Proof.
  intros H1. revert k2. induction H1 as [|a v l k1 Ha _ IH]; intros k2 H2.
  - by apply Forall2_nil_inv_l in H2.
  - apply Forall2_cons_inv_l in H2 as (v' & k2' & Ha' & H2 & ->).
    f_equal; [congruence|by apply IH].
Qed.

Lemma foldl_sink_act bufsize fs (l : list string) s :
  foldl (λ s a, sink_act bufsize fs a s) s l
  = foldl report s (l ≫= λ a, reported (outcome bufsize fs a)).
Proof.
  revert s. induction l as [|a l IH]; intros s; [done|].
  simpl. rewrite IH. unfold sink_act. by rewrite foldl_app.
Qed.

(** ** Completed runs *)

Lemma Forall2_elem_l {A B} (P : A → B → Prop) l k a :
  Forall2 P l k → a ∈ l → ∃ v, v ∈ k ∧ P a v.
Proof.
  intros HF [i Hi]%list_elem_of_lookup.
  destruct (Forall2_lookup_l _ _ _ _ _ HF Hi) as (v & Hv & HP).
  exists v. split; [|done]. by eapply list_elem_of_lookup_2.
Qed.

Lemma dict_update_Ret l m m' :
  dict_update l m = Ret m' → None ∉ l.
Proof.
  intros Hd Hin. by rewrite (dict_update_None _ _ Hin) in Hd.
Qed.

Section completed.
Context (bufsize : N) (fs : filesystem).

Lemma reported_success (l : list string) :
  Forall (λ a, outcome bufsize fs a = Ret (Some (a, digest_of bufsize fs a))) l →
  l ≫= (λ a, reported (outcome bufsize fs a))
  = (λ a, (a, digest_of bufsize fs a)) <$> l.
Proof.
  induction 1 as [|a l Ha _ IH]; [done|].
  rewrite bind_cons, fmap_cons, IH, Ha. done.
Qed.

(** Results that [dict] accepts are successes, each for its own task. *)
Lemma results_accepted (l : list string) vs m :
  Forall2 (λ a v, outcome bufsize fs a = Ret v) l vs →
  dict vs = Ret m →
  Forall (λ a, outcome bufsize fs a = Ret (Some (a, digest_of bufsize fs a))) l
  ∧ vs = Some <$> ((λ a, (a, digest_of bufsize fs a)) <$> l).
Proof.
  intros HF Hdict. apply dict_update_Ret in Hdict as Hnone.
  clear Hdict. induction HF as [|a v l vs Ha _ IH]; [done|].
  destruct IH as [Hall ->]. { intros Hin. apply Hnone. by right. }
  destruct v as [[p d]|]; [|destruct Hnone; by left].
  destruct (compute_digest_open bufsize fs a fresh eq_refl) as (_ & _ & _ & Hp & _).
  assert (p = a) as -> by (by eapply Hp).
  assert (digest_of bufsize fs a = d) as Hd by (unfold digest_of; by rewrite Ha).
  split; [constructor; [by rewrite Hd|done]|]. by rewrite !fmap_cons, Hd.
Qed.

(** A run that returns a map, whatever the pool size and the schedule:
    every listed file was hashed, and the map holds exactly their
    digests. *)
Lemma completed_run processes sched topdir fname st m st' :
  build_digest_map bufsize processes sched fs topdir fname st = (Ret m, st') →
  Forall (λ a, outcome bufsize fs a = Ret (Some (a, digest_of bufsize fs a)))
         (allfiles fs topdir)
  ∧ (∀ k, m !! k = if bool_decide (k ∈ allfiles fs topdir)
                   then Some (digest_of bufsize fs k) else None).
Proof.
  rewrite build_digest_map_unfold.
  case_bool_decide; [done|]. destruct (open_w fs fname); [|done].
  pose proof (starmap_complete bufsize fs processes sched (allfiles fs topdir)
                (launched st) (launched_open st)) as Hstar.
  cbn zeta in Hstar. destruct (starmap _ _ _ _ _) as [res st2]. cbn [fst snd] in Hstar.
  destruct Hstar as [(-> & _)|(vs & -> & HF & _)]; [done|].
  destruct (dict vs) as [m0|e] eqn:Hdict; [|done].
  intros [= -> _].
  destruct (results_accepted _ _ _ HF Hdict) as [Hall ->].
  split; [done|]. intros k. unfold dict in Hdict. rewrite dict_update_Some in Hdict.
  injection Hdict as <-. rewrite dict_lookup. by rewrite lookup_empty.
Qed.

(** With one process, the sink has moreover recorded one report per
    file, in the order of the walk. *)
Lemma completed_run_in_order sched topdir fname st m st' :
  build_digest_map bufsize 1 sched fs topdir fname st = (Ret m, st') →
  let reports := (λ a, (a, digest_of bufsize fs a)) <$> allfiles fs topdir in
  printer st' = Notify (length reports)
                       ((λ fd, log_line fd.1 fd.2) <$> reports) true
  ∧ stdout st' = stdout st ++ progress_lines 1 reports ++ summary (length reports).
Proof.
  intros Hrun.
  destruct (completed_run 1 sched topdir fname st m st' Hrun) as [Hall _].
  revert Hrun. rewrite build_digest_map_unfold.
  case_bool_decide; [done|]. destruct (open_w fs fname); [|done].
  destruct (starmap _ _ _ _ _) as [[vs|e] st2] eqn:Hstar; [|done].
  destruct (dict vs) as [m0|e]; [|done].
  rewrite final_eq. intros [= _ <-].
  apply starmap_in_order in Hstar as Hview; [|apply launched_open].
  unfold sink_view in Hview.
  change (printer (launched st)) with (Notify 0 [] false) in Hview.
  change (stdout (launched st)) with (stdout st) in Hview.
  rewrite foldl_sink_act, reported_success, report_all in Hview by done.
  injection Hview as Hp Hs. rewrite Hp, Hs. cbn [x file printer stdout launched].
  cbn zeta. unfold progress_lines, summary. rewrite <- !app_assoc. done.
Qed.

End completed.

(** When every listed file reads to its end, the run returns, and the map
    holds the reference hash of each file's contents under its path. *)
Lemma all_readable_run bufsize processes sched fs topdir fname st
    (contents : string → list byte) :
  (0 < bufsize)%N →
  (1 ≤ processes)%nat →
  open_w fs fname = true →
  (∀ a, a ∈ allfiles fs topdir → open_rb fs a = Some (Stream (contents a) false)) →
  ∃ m st',
    build_digest_map bufsize processes sched fs topdir fname st = (Ret m, st')
    ∧ ∀ k, m !! k = if bool_decide (k ∈ allfiles fs topdir)
                    then Some (SHA512.hex (SHA512.sha512 (contents k))) else None.
Proof.
  intros Hpos Hproc Hlog Hread.
  assert (∀ a, a ∈ allfiles fs topdir →
            outcome bufsize fs a
            = Ret (Some (a, SHA512.hex (SHA512.sha512 (contents a))))) as Hout.
  { intros a Ha. unfold outcome.
    destruct (compute_digest_readable bufsize fs a (contents a) fresh Hpos
                (Hread a Ha) eq_refl) as (k & -> & _). done. }
  assert (∃ m st', build_digest_map bufsize processes sched fs topdir fname st
                   = (Ret m, st')) as (m & st' & Hrun).
  { rewrite build_digest_map_unfold, Hlog. case_bool_decide; [lia|].
    pose proof (starmap_complete bufsize fs processes sched (allfiles fs topdir)
                  (launched st) (launched_open st)) as Hstar.
    cbn zeta in Hstar.
    destruct (starmap _ _ _ _ _) as [res st2]. cbn [fst snd] in Hstar.
    destruct Hstar as [(_ & a & e & Ha & He)|(vs & -> & HF & _)].
    { rewrite (Hout a Ha) in He. done. }
    assert (∃ kvs, vs = Some <$> kvs) as [kvs ->].
    { clear -HF Hout. induction HF as [|a v l k Ha _ IH].
      - by exists [].
      - destruct IH as [kvs ->]. { intros b Hb. apply Hout. by right. }
        rewrite Hout in Ha by left. injection Ha as <-. by eexists (_ :: kvs). }
    unfold dict. rewrite dict_update_Some. eauto. }
  exists m, st'. split; [done|].
  destruct (completed_run bufsize fs processes sched topdir fname st m st' Hrun)
    as (_ & Hm).
  intros k. rewrite Hm. case_bool_decide as Hk; [|done].
  unfold digest_of. by rewrite (Hout k Hk).
Qed.

(** No task: [starmap] returns at once, whatever the pool. *)
Lemma starmap_no_task {A T} processes sched (f : A → thread (option T)) st :
  starmap processes sched f [] st = (Ret [], st).
Proof.
  unfold starmap. case_bool_decide.
  - by rewrite pool_fold_nil.
  - cbn [length get_tasks fmap list_fmap]. by rewrite turns_nil.
Qed.


(** A result [None] among those handed to [dict]. *)
Lemma dict_raise_None l e : dict l = Raise e → None ∈ l.
Proof.
  unfold dict. generalize (∅ : gmap string string).
  induction l as [|[[k v]|] l IH]; intros m; simpl; [done| |by left].
  intros Hd. right. by eapply IH.
Qed.

(** C3, as the code has it. With one worker process, in a run that
    returns, the sink received one report per listed file, in the order
    of the walk; the console shows them numbered 1, 2, ..., K with K their
    number, then the summary with the same K, which is also the final
    counter and the number of lines written to the log. *)
Theorem sequence_numbers_contiguous bufsize sched fs topdir fname st m st' :
  build_digest_map bufsize 1 sched fs topdir fname st = (Ret m, st') →
  ∃ reports : list (string * string),
    reports.*1 = allfiles fs topdir
    ∧ Forall (λ fd, outcome bufsize fs fd.1 = Ret (Some fd)) reports
    ∧ stdout st' =
        stdout st
          ++ zip_with (λ n fd, progress_line n fd.1 fd.2)
                      (seq 1 (length reports)) reports
          ++ [Fmt.NL;
              "Files Processed:" +:+ Fmt.TAB
                +:+ Fmt.zero_padded 6 (length reports) +:+ Fmt.NL]
    ∧ x (printer st') = length reports
    ∧ file (printer st') = (λ fd, log_line fd.1 fd.2) <$> reports.
Proof.
  intros Hrun.
  destruct (completed_run bufsize fs 1 sched topdir fname st m st' Hrun) as [Hall _].
  destruct (completed_run_in_order bufsize fs sched topdir fname st m st' Hrun)
    as [Hp Hs].
  exists ((λ a, (a, digest_of bufsize fs a)) <$> allfiles fs topdir).
  split_and!.
  - rewrite <- list_fmap_compose. by rewrite list_fmap_id.
  - apply Forall_fmap. by apply (Forall_impl _ _ _ Hall).
  - exact Hs.
  - by rewrite Hp.
  - by rewrite Hp.
Qed.

Lemma sequence_numbers_contiguous_witness :
  ∃ reports : list (string * string),
    reports.*1 = allfiles scenario "root"
    ∧ Forall (λ fd, outcome BUFSIZE scenario fd.1 = Ret (Some fd)) reports
    ∧ stdout (build_digest_map BUFSIZE POOLSIZE [] scenario "root" "1core.txt" fresh).2 =
        stdout fresh
          ++ zip_with (λ n fd, progress_line n fd.1 fd.2)
                      (seq 1 (length reports)) reports
          ++ [Fmt.NL;
              "Files Processed:" +:+ Fmt.TAB
                +:+ Fmt.zero_padded 6 (length reports) +:+ Fmt.NL]
    ∧ x (printer (build_digest_map BUFSIZE POOLSIZE [] scenario "root" "1core.txt" fresh).2)
      = length reports
    ∧ file (printer (build_digest_map BUFSIZE POOLSIZE [] scenario "root" "1core.txt" fresh).2)
      = (λ fd, log_line fd.1 fd.2) <$> reports.
Proof.
  apply (sequence_numbers_contiguous BUFSIZE [] scenario "root" "1core.txt" fresh
           match (build_digest_map BUFSIZE POOLSIZE [] scenario "root" "1core.txt" fresh).1
           with Ret m => m | Raise _ => ∅ end
           (build_digest_map BUFSIZE POOLSIZE [] scenario "root" "1core.txt" fresh).2).
  vm_compute. reflexivity.
Defined.



(** * The claims *)

(** ** Unreadable files *)

(** C1. A run over a tree that lists a file whose open fails does not
    return a digest map: the worker's [None] for that file reaches [dict],
    and the run ends in an exception, whatever the pool size and the
    schedule. *)
Theorem unreadable_file_aborts_run bufsize processes sched fs topdir fname st f :
  f ∈ allfiles fs topdir →
  open_rb fs f = None →
  ∃ e, (build_digest_map bufsize processes sched fs topdir fname st).1 = Raise e.
Proof.
  intros Hin Hopen. rewrite build_digest_map_unfold.
  case_bool_decide; [by eexists|]. destruct (open_w fs fname); [|by eexists].
  pose proof (starmap_complete bufsize fs processes sched (allfiles fs topdir)
                (launched st) (launched_open st)) as Hstar.
  cbn zeta in Hstar. destruct (starmap _ _ _ _ _) as [res st']. cbn [fst snd] in Hstar.
  destruct Hstar as [(-> & _)|(vs & -> & HF & _)]; [by eexists|].
  assert (outcome bufsize fs f = Ret None) as Hout.
  { unfold outcome. by rewrite compute_digest_unopenable. }
  assert (None ∈ vs) as Hnone.
  { destruct (Forall2_elem_l _ _ _ _ HF Hin) as (v & Hv & Hf).
    rewrite Hout in Hf. by injection Hf as <-. }
  unfold dict. rewrite (dict_update_None _ _ Hnone). by eexists.
Qed.

Lemma unreadable_file_aborts_run_witness :
  ∃ e, (build_digest_map BUFSIZE POOLSIZE [] one_unreadable "root" "1core.txt" fresh).1
       = Raise e.
Proof.
  apply (unreadable_file_aborts_run BUFSIZE POOLSIZE [] one_unreadable
           "root" "1core.txt" fresh "root/b.txt").
  - apply (bool_decide_unpack _). vm_compute. exact I.
  - reflexivity.
Defined.

(** C4. One readable and one unreadable file under the root: the run
    raises [TypeError] and returns no map, so the readable file gets no
    entry either. *)
Theorem mixed_tree_yields_no_map :
  allfiles one_unreadable "root" = ["root/a.txt"; "root/b.txt"]
  ∧ outcome BUFSIZE one_unreadable "root/a.txt" = Ret (Some ("root/a.txt", sha512_hello))
  ∧ outcome BUFSIZE one_unreadable "root/b.txt" = Ret None
  ∧ (build_digest_map BUFSIZE POOLSIZE [] one_unreadable "root" "1core.txt" fresh).1
    = Raise TypeError
  ∧ (build_digest_map BUFSIZE 16 [1; 0]%nat one_unreadable "root" "16proc.txt" fresh).1
    = Raise TypeError.
Proof. split_and!; by vm_compute. Qed.

(** C6, as the code has it: when the open fails the worker returns [None]
    and changes nothing; it raises nothing. *)
Theorem open_failure_is_absorbed bufsize fs filename st :
  open_rb fs filename = None →
  compute_digest bufsize fs filename st = (Ret None, st).
Proof. apply compute_digest_unopenable. Qed.

Lemma open_failure_is_absorbed_witness :
  compute_digest BUFSIZE one_unreadable "root/b.txt" fresh = (Ret None, fresh).
Proof.
  apply (open_failure_is_absorbed BUFSIZE one_unreadable "root/b.txt" fresh).
  reflexivity.
Defined.

(** C6 fails where a file opens and then cannot be read to its end: the
    error of the read leaves the worker as an exception. *)
Lemma read_failure_propagates :
  open_rb one_faulty "root/a.txt" = Some (Stream (bytes_of_string "hello") true)
  ∧ (compute_digest BUFSIZE one_faulty "root/a.txt" fresh).1 = Raise OSError
  ∧ (compute_digest BUFSIZE one_faulty "root/a.txt" fresh).1 ≠ Ret None.
Proof. split_and!; by vm_compute. Qed.

(** ** The root directory *)

(** C5, as the code has it: when the root cannot be listed the walk is
    empty, no task reaches the pool, and the run returns the empty map
    after a summary of zero files; nothing is raised. *)
Theorem unavailable_root_gives_empty_map
    bufsize processes sched fs topdir fname st :
  root_unavailable fs topdir →
  (1 ≤ processes)%nat →
  open_w fs fname = true →
  allfiles fs topdir = []
  ∧ build_digest_map bufsize processes sched fs topdir fname st =
      (Ret ∅,
       State (Notify 0 [] true)
             (stdout st ++ [Fmt.NL; "Files Processed:" +:+ Fmt.TAB +:+ "000000" +:+ Fmt.NL])
             (logging st ++ [(log0, "launching the Imaps")])).
Proof.
  intros Hroot%walk_unavailable Hproc Hlog. split; [done|].
  rewrite build_digest_map_unfold, Hroot, Hlog.
  case_bool_decide; [lia|].
  rewrite starmap_no_task. cbn [dict dict_update]. by rewrite final_eq.
Qed.

Lemma unavailable_root_gives_empty_map_witness :
  allfiles no_root "D:\\Software" = []
  ∧ build_digest_map BUFSIZE POOLSIZE [] no_root "D:\\Software" "1core.txt" fresh =
      (Ret ∅,
       State (Notify 0 [] true)
             ([] ++ [Fmt.NL; "Files Processed:" +:+ Fmt.TAB +:+ "000000" +:+ Fmt.NL])
             ([] ++ [(log0, "launching the Imaps")])).
Proof.
  apply (unavailable_root_gives_empty_map BUFSIZE POOLSIZE [] no_root
           "D:\\Software" "1core.txt" fresh).
  - exact I.
  - unfold POOLSIZE. lia.
  - reflexivity.
Defined.

(** C5 fails: a missing root raises nothing, the caller gets an empty map. *)
Lemma missing_root_returns_empty_map :
  lookup_dir no_root "D:\\Software" = None
  ∧ (build_digest_map BUFSIZE POOLSIZE [] no_root "D:\\Software" "1core.txt" fresh).1
    = Ret ∅
  ∧ ¬ ∃ e, (build_digest_map BUFSIZE POOLSIZE [] no_root "D:\\Software" "1core.txt" fresh).1
           = Raise e.
Proof. split_and!; [done|by vm_compute|]. intros [e He]. vm_compute in He. done. Qed.

(** ** The digest of one file *)

(** C2. For a file that reads to its end, the worker's digest is the
    reference hash of the whole contents, for every positive chunk size;
    two chunk sizes give the same result. *)
Theorem digest_independent_of_chunk_size bufsize bufsize' fs filename d st :
  (0 < bufsize)%N →
  (0 < bufsize')%N →
  open_rb fs filename = Some (Stream d false) →
  sink_open st →
  (compute_digest bufsize fs filename st).1
    = Ret (Some (filename, SHA512.hex (SHA512.sha512 d)))
  ∧ (compute_digest bufsize' fs filename st).1
    = (compute_digest bufsize fs filename st).1.
Proof.
  intros Hpos Hpos' Hopen Hsink.
  destruct (compute_digest_readable bufsize fs filename d st Hpos Hopen Hsink)
    as (k & -> & _).
  destruct (compute_digest_readable bufsize' fs filename d st Hpos' Hopen Hsink)
    as (k' & -> & _).
  done.
Qed.

Lemma digest_independent_of_chunk_size_witness :
  (compute_digest 2 scenario "root/a.txt" fresh).1
    = Ret (Some ("root/a.txt", SHA512.hex (SHA512.sha512 (bytes_of_string "hello"))))
  ∧ (compute_digest BUFSIZE scenario "root/a.txt" fresh).1
    = (compute_digest 2 scenario "root/a.txt" fresh).1.
Proof.
  apply (digest_independent_of_chunk_size 2 BUFSIZE scenario "root/a.txt"
           (bytes_of_string "hello") fresh).
  - reflexivity.
  - reflexivity.
  - reflexivity.
  - reflexivity.
Defined.

(** C10. On a file that reads to its end the loop ends and the worker
    returns a success carrying the hash of the whole contents. For an
    empty file no update is made (the loggers see the end of the loop
    only) and the digest is the hash of the empty byte string. *)
Theorem reading_loop_terminates bufsize fs filename d st :
  (0 < bufsize)%N →
  open_rb fs filename = Some (Stream d false) →
  sink_open st →
  ∃ st',
    compute_digest bufsize fs filename st
      = (Ret (Some (filename, SHA512.hex (SHA512.sha512 d))), st')
    ∧ (d = [] →
         SHA512.hex (SHA512.sha512 d) = sha512_empty
         ∧ SHA512.hex (SHA512.digest SHA512.new) = sha512_empty
         ∧ logging st' = logging st ++ [log_done filename]).
Proof.
  intros Hpos Hopen Hsink.
  destruct (compute_digest_readable bufsize fs filename d st Hpos Hopen Hsink)
    as (k & -> & Hk).
  eexists. split; [done|]. intros ->. rewrite (Hk eq_refl). simpl.
  split_and!; [by vm_compute|by vm_compute|done].
Qed.

Lemma reading_loop_terminates_witness :
  ∃ st',
    compute_digest BUFSIZE scenario "root/b.txt" fresh
      = (Ret (Some ("root/b.txt", SHA512.hex (SHA512.sha512 []))), st')
    ∧ (([] : list byte) = [] →
         SHA512.hex (SHA512.sha512 []) = sha512_empty
         ∧ SHA512.hex (SHA512.digest SHA512.new) = sha512_empty
         ∧ logging st' = logging fresh ++ [log_done "root/b.txt"]).
Proof.
  apply (reading_loop_terminates BUFSIZE scenario "root/b.txt" [] fresh).
  - reflexivity.
  - reflexivity.
  - reflexivity.
Defined.

(** ** The sink *)

(** C7. A worker that returns a success has appended one string to the
    run log: the path, spaces up to column 175 when the path is shorter,
    a tab, the 128 lowercase hexadecimal digits of the digest, a newline.
    A worker that returns [None] has appended nothing. *)
Theorem run_log_line bufsize fs filename st r st' :
  compute_digest bufsize fs filename st = (Ret r, st') →
  match r with
  | Some (p, d) =>
      p = filename
      ∧ file (printer st') =
          file (printer st)
            ++ [(p +:+ Fmt.fill " " (175 - String.length p)) +:+ Fmt.TAB +:+ d +:+ Fmt.NL]
      ∧ String.length d = 128%nat
      ∧ forallb SHA512.is_lower_hex (list_ascii_of_string d) = true
  | None => file (printer st') = file (printer st)
  end.
Proof.
  unfold compute_digest. destruct (open_rb fs filename) as [f|].
  2: { by intros [= <- <-]. }
  unfold mbind, M_bind.
  pose proof (read_loop_frame bufsize filename f SHA512.new st) as [Hp _].
  destruct (read_loop bufsize filename f SHA512.new st) as [[o|e] st1]; [|done].
  simpl in Hp. destruct (closed (printer st1)) eqn:Hc.
  - pose proof (msPrint_closed filename (SHA512.hex (SHA512.digest o)) st1 Hc) as Hr.
    by destruct (msPrint _ _ st1) as [[[]|e] st2].
  - rewrite msPrint_open by done. intros [= <- <-].
    cbn [printer file]. rewrite Hp. unfold log_line, Fmt.ljust.
    split_and!; [reflexivity|reflexivity| |apply SHA512_facts.hex_lower].
    rewrite SHA512_facts.hex_length. unfold SHA512.digest.
    by rewrite SHA512_facts.regs_bytes_length.
Qed.

Lemma run_log_line_witness :
  match Some ("root/b.txt", sha512_empty) with
  | Some (p, d) =>
      p = "root/b.txt"
      ∧ file (printer (compute_digest BUFSIZE scenario "root/b.txt" fresh).2) =
          file (printer fresh)
            ++ [(p +:+ Fmt.fill " " (175 - String.length p)) +:+ Fmt.TAB +:+ d +:+ Fmt.NL]
      ∧ String.length d = 128%nat
      ∧ forallb SHA512.is_lower_hex (list_ascii_of_string d) = true
  | None => file (printer (compute_digest BUFSIZE scenario "root/b.txt" fresh).2)
            = file (printer fresh)
  end.
Proof.
  apply (run_log_line BUFSIZE scenario "root/b.txt" fresh).
  vm_compute. reflexivity.
Defined.

(** C8. When a worker returns a success, the state it returns in is the
    state left by the sink's [msPrint] on that path and digest, called
    after the reading loop: the report comes before the result. *)
Theorem report_precedes_result bufsize fs filename st p d st' :
  compute_digest bufsize fs filename st = (Ret (Some (p, d)), st') →
  p = filename
  ∧ ∃ st1,
      printer st1 = printer st ∧ stdout st1 = stdout st
      ∧ msPrint p d st1 = (Ret (), st')
      ∧ x (printer st') = S (x (printer st))
      ∧ last (file (printer st')) = Some (log_line p d)
      ∧ last (stdout st') = Some (progress_line (x (printer st')) p d).
Proof.
  unfold compute_digest. destruct (open_rb fs filename) as [f|]; [|done].
  unfold mbind, M_bind.
  pose proof (read_loop_frame bufsize filename f SHA512.new st) as [Hp Hs].
  destruct (read_loop bufsize filename f SHA512.new st) as [[o|e] st1]; [|done].
  simpl in Hp, Hs. destruct (closed (printer st1)) eqn:Hc.
  - pose proof (msPrint_closed filename (SHA512.hex (SHA512.digest o)) st1 Hc) as Hr.
    by destruct (msPrint _ _ st1) as [[[]|e] st2].
  - pose proof (msPrint_open filename (SHA512.hex (SHA512.digest o)) st1 Hc) as Hm.
    rewrite Hm. intros [= <- <- <-]. split; [done|].
    exists st1. split_and!; [done|done|exact Hm|..];
      cbn [printer x file stdout]; rewrite ?last_snoc, ?Hp; done.
Qed.

Lemma report_precedes_result_witness :
  "root/b.txt" = "root/b.txt"
  ∧ ∃ st1,
      printer st1 = printer fresh ∧ stdout st1 = stdout fresh
      ∧ msPrint "root/b.txt" sha512_empty st1
        = (Ret (), (compute_digest BUFSIZE scenario "root/b.txt" fresh).2)
      ∧ x (printer (compute_digest BUFSIZE scenario "root/b.txt" fresh).2)
        = S (x (printer fresh))
      ∧ last (file (printer (compute_digest BUFSIZE scenario "root/b.txt" fresh).2))
        = Some (log_line "root/b.txt" sha512_empty)
      ∧ last (stdout (compute_digest BUFSIZE scenario "root/b.txt" fresh).2)
        = Some (progress_line
                  (x (printer (compute_digest BUFSIZE scenario "root/b.txt" fresh).2))
                  "root/b.txt" sha512_empty).
Proof.
  apply (report_precedes_result BUFSIZE scenario "root/b.txt" fresh).
  vm_compute. reflexivity.
Defined.

(** * Further properties of the program *)

(** ** The hash object *)

(** X1. Two updates of a hash object are one update with the two chunks
    joined, whatever the object has been fed before: this is what lets
    the worker read a file in pieces. *)
Theorem update_concatenates (o : SHA512.hasher) (a b : list byte) :
  SHA512.update (SHA512.update o a) b = SHA512.update o (a ++ b).
Proof.
  unfold SHA512.update.
  pose proof (SHA512_facts.absorb_app (SHA512.hstate o) (SHA512.buffer o ++ a) b) as Happ.
  rewrite <- app_assoc in Happ.
  destruct (SHA512.absorb (SHA512.hstate o) (SHA512.buffer o ++ a)) as [h rest].
  cbn [SHA512.hstate SHA512.buffer SHA512.count fst snd] in *.
  rewrite <- Happ.
  destruct (SHA512.absorb (SHA512.hstate o) (SHA512.buffer o ++ a ++ b)) as [h' rest'].
  f_equal. rewrite length_app. lia.
Qed.

(** ** The worker on files that do not read to their end *)

Lemma take_bytes_chunk_length n l :
  length (take_bytes n l).1 = Nat.min (N.to_nat n) (length l).
Proof.
  revert n. induction l as [|a l IH]; intros n; simpl; [lia|].
  destruct (N.eqb_spec n 0) as [->|Hn]; simpl; [done|].
  specialize (IH (N.pred n)). destruct (take_bytes (N.pred n) l) as [c r].
  simpl in *. rewrite IH. lia.
Qed.

Lemma read_loop_faulty bufsize filename d o st :
  (0 < bufsize)%N →
  ∃ k, read_loop bufsize filename (Stream d true) o st
       = (Raise OSError,
          State (printer st) (stdout st)
                (logging st ++ replicate k (log_update filename))).
Proof.
  intros Hpos. remember (length d) as n eqn:Hn.
  revert d o st Hn. induction n as [n IH] using lt_wf_ind. intros d o st ->.
  rewrite read_loop_step. unfold read. cbn [data faulty].
  pose proof (take_bytes_chunk_length bufsize d) as Hlen.
  destruct (take_bytes bufsize d) as [c r] eqn:Htake. cbn [fst] in Hlen.
  destruct (N.ltb_spec (N.of_nat (length c)) bufsize) as [Hlt|Hge]; cbn [andb].
  - exists 0%nat. simpl. rewrite app_nil_r. by destruct st.
  - destruct c as [|b c]; [simpl in Hge; lia|].
    pose proof (take_bytes_shrinks _ _ _ _ _ Htake) as Hshr.
    destruct (IH _ Hshr r (SHA512.update o (b :: c))
                (info log1 (filename +:+ " digest being updated") st).2 eq_refl)
      as [k Hk].
    exists (S k). rewrite Hk. simpl. by rewrite <- app_assoc.
Qed.

(** X2. A file that opens and then fails to read makes the worker raise
    [OSError]; the sink is not called: counter, run log and console are
    as before. *)
Theorem read_fault_leaves_sink_untouched bufsize fs filename d st :
  (0 < bufsize)%N →
  open_rb fs filename = Some (Stream d true) →
  (compute_digest bufsize fs filename st).1 = Raise OSError
  ∧ printer (compute_digest bufsize fs filename st).2 = printer st
  ∧ stdout (compute_digest bufsize fs filename st).2 = stdout st.
Proof.
  intros Hpos Hopen. unfold compute_digest. rewrite Hopen.
  unfold mbind, M_bind.
  destruct (read_loop_faulty bufsize filename d SHA512.new st Hpos) as [k ->].
  done.
Qed.

Lemma read_fault_leaves_sink_untouched_witness :
  (compute_digest BUFSIZE one_faulty "root/a.txt" fresh).1 = Raise OSError
  ∧ printer (compute_digest BUFSIZE one_faulty "root/a.txt" fresh).2 = printer fresh
  ∧ stdout (compute_digest BUFSIZE one_faulty "root/a.txt" fresh).2 = stdout fresh.
Proof.
  apply (read_fault_leaves_sink_untouched BUFSIZE one_faulty "root/a.txt"
           (bytes_of_string "hello") fresh).
  - reflexivity.
  - reflexivity.
Defined.

(** X3. With a chunk size of zero the first read is empty, the loop ends
    at once, and the worker reports the hash of the empty string whatever
    the file holds. *)
Theorem zero_chunk_size_hashes_nothing fs filename f st :
  open_rb fs filename = Some f →
  sink_open st →
  (compute_digest 0 fs filename st).1 = Ret (Some (filename, sha512_empty))
  ∧ logging (compute_digest 0 fs filename st).2 = logging st ++ [log_done filename].
Proof.
  intros Hopen Hsink. unfold compute_digest. rewrite Hopen.
  unfold mbind, M_bind. rewrite read_loop_step.
  assert (read 0 f = (Ret [], Stream (data f) (faulty f))) as ->.
  { unfold read. destruct (data f) as [|b l]; simpl; by rewrite andb_false_r. }
  cbn [info snd].
  assert (SHA512.hex (SHA512.digest SHA512.new) = sha512_empty) as -> by by vm_compute.
  rewrite msPrint_open by done. done.
Qed.

Lemma zero_chunk_size_hashes_nothing_witness :
  (compute_digest 0 scenario "root/a.txt" fresh).1
    = Ret (Some ("root/a.txt", sha512_empty))
  ∧ logging (compute_digest 0 scenario "root/a.txt" fresh).2
    = logging fresh ++ [log_done "root/a.txt"].
Proof.
  apply (zero_chunk_size_hashes_nothing scenario "root/a.txt"
           (Stream (bytes_of_string "hello") false) fresh).
  - reflexivity.
  - reflexivity.
Defined.

(** ** The number of reads *)

Lemma chunks_needed_0 bufsize : (0 < bufsize)%N → chunks_needed bufsize 0 = 0%nat.
Proof.
  intros Hpos. unfold chunks_needed. rewrite N.div_small; lia.
Qed.

Lemma chunks_needed_step bufsize len :
  (0 < bufsize)%N → (0 < len)%nat →
  chunks_needed bufsize len
  = S (chunks_needed bufsize (len - Nat.min (N.to_nat bufsize) len)).
Proof.
  intros Hpos Hlen. unfold chunks_needed.
  destruct (le_lt_dec len (N.to_nat bufsize)) as [Hle|Hgt].
  - rewrite Nat.min_r by done.
    assert ((N.of_nat (len - len) + bufsize - 1) / bufsize = 0)%N as ->.
    { apply N.div_small. lia. }
    assert ((N.of_nat len + bufsize - 1) / bufsize = 1)%N as ->; [|done].
    symmetry. apply (N.div_unique _ _ 1 (N.of_nat len - 1)); lia.
  - rewrite Nat.min_l by lia.
    replace (N.of_nat len + bufsize - 1)%N
      with ((N.of_nat (len - N.to_nat bufsize) + bufsize - 1) + 1 * bufsize)%N by lia.
    rewrite N.div_add by lia. lia.
Qed.

Lemma read_loop_chunks bufsize filename d o st :
  (0 < bufsize)%N →
  logging (read_loop bufsize filename (Stream d false) o st).2
  = logging st ++ replicate (chunks_needed bufsize (length d)) (log_update filename)
               ++ [log_done filename].
Proof.
  intros Hpos. remember (length d) as n eqn:Hn.
  revert d o st Hn. induction n as [n IH] using lt_wf_ind. intros d o st ->.
  rewrite read_loop_step, read_readable.
  pose proof (take_bytes_chunk_length bufsize d) as Hlen.
  pose proof (take_bytes_length bufsize d (take_bytes bufsize d).1
                (take_bytes bufsize d).2) as Hsum.
  destruct (take_bytes bufsize d) as [c r] eqn:Htake. cbn [fst snd] in *.
  specialize (Hsum eq_refl). destruct c as [|b c].
  - apply take_bytes_nil in Htake as ->; [|done].
    simpl. by rewrite chunks_needed_0.
  - rewrite (IH (length r)); [|simpl in Hsum; lia|done].
    rewrite (chunks_needed_step bufsize (length d)) by (simpl in Hsum; lia).
    rewrite <- Hlen. replace (length d - length (b :: c))%nat with (length r) by lia.
    simpl. by rewrite <- app_assoc.
Qed.

Lemma msPrint_logging filename digest st :
  logging (msPrint filename digest st).2 = logging st.
Proof.
  unfold msPrint, mbind, M_bind, incr_x, get_x, print, file_write. simpl.
  by destruct (closed (printer st)).
Qed.

(** X4. A file of [n] bytes that reads to its end is read in
    [ceil (n / BUFSIZE)] non-empty chunks, each followed by one update of
    the hash object, and one last empty read that ends the loop. *)
Theorem updates_per_file bufsize fs filename d st :
  (0 < bufsize)%N →
  open_rb fs filename = Some (Stream d false) →
  logging (compute_digest bufsize fs filename st).2
  = logging st
      ++ replicate (N.to_nat ((N.of_nat (length d) + bufsize - 1) / bufsize))
                   (log1, filename +:+ " digest being updated")
      ++ [(log0, filename +:+ " digest calculated")].
Proof.
  intros Hpos Hopen. unfold compute_digest. rewrite Hopen.
  unfold mbind, M_bind.
  pose proof (read_loop_chunks bufsize filename d SHA512.new st Hpos) as Hlog.
  unfold chunks_needed, log_update, log_done in Hlog.
  destruct (read_loop bufsize filename (Stream d false) SHA512.new st) as [[o|e] st1];
    [|exact Hlog].
  cbn [snd] in Hlog. rewrite <- Hlog.
  pose proof (msPrint_logging filename (SHA512.hex (SHA512.digest o)) st1) as Hm.
  by destruct (msPrint _ _ st1) as [[[]|e] st2].
Qed.

Lemma updates_per_file_witness :
  logging (compute_digest 2 scenario "root/a.txt" fresh).2
  = logging fresh
      ++ replicate (N.to_nat ((N.of_nat (length (bytes_of_string "hello")) + 2 - 1) / 2))
                   (log1, "root/a.txt" +:+ " digest being updated")
      ++ [(log0, "root/a.txt" +:+ " digest calculated")].
Proof.
  apply (updates_per_file 2 scenario "root/a.txt" (bytes_of_string "hello") fresh).
  - reflexivity.
  - reflexivity.
Defined.

(** ** Runs *)

(** X5. When every listed file reads to its end, the pool has a process,
    and the log can be created, the run returns, and its map holds under
    each listed path the reference hash of that file, and nothing else. *)
Theorem readable_tree_gives_complete_map
    bufsize processes sched fs topdir fname st (contents : string → list byte) :
  (0 < bufsize)%N →
  (1 ≤ processes)%nat →
  open_w fs fname = true →
  schedule_of processes (length (allfiles fs topdir)) sched →
  (∀ a, a ∈ allfiles fs topdir → open_rb fs a = Some (Stream (contents a) false)) →
  ∃ m st',
    build_digest_map bufsize processes sched fs topdir fname st = (Ret m, st')
    ∧ dom m = list_to_set (allfiles fs topdir)
    ∧ ∀ a, a ∈ allfiles fs topdir →
           m !! a = Some (SHA512.hex (SHA512.sha512 (contents a))).
Proof.
  intros Hpos Hproc Hlog Hsched Hread.
  destruct (all_readable_run bufsize processes sched fs topdir fname st contents
              Hpos Hproc Hlog Hread) as (m & st' & Hrun & Hm).
  exists m, st'. split_and!; [done| |].
  - apply set_eq. intros k. rewrite elem_of_dom, elem_of_list_to_set, Hm.
    case_bool_decide; [|by split; [intros []|]]. split; [done|by eexists].
  - intros a Ha. rewrite Hm. by rewrite bool_decide_eq_true_2.
Qed.

Lemma readable_tree_gives_complete_map_witness :
  ∃ m st',
    build_digest_map BUFSIZE 16 [2; 0; 1]%nat scenario "root" "16proc.txt" fresh
      = (Ret m, st')
    ∧ dom m = list_to_set (allfiles scenario "root")
    ∧ ∀ a, a ∈ allfiles scenario "root" →
           m !! a = Some (SHA512.hex (SHA512.sha512
                            (match open_rb scenario a with
                             | Some f => data f
                             | None => []
                             end))).
Proof.
  apply (readable_tree_gives_complete_map BUFSIZE 16 [2; 0; 1]%nat scenario
           "root" "16proc.txt" fresh
           (λ a, match open_rb scenario a with Some f => data f | None => [] end)).
  - reflexivity.
  - lia.
  - reflexivity.
  - right. apply (bool_decide_unpack _). vm_compute. exact I.
  - intros a Ha. vm_compute in Ha.
    repeat (apply elem_of_cons in Ha as [->|Ha]; [reflexivity|]).
    by apply elem_of_nil in Ha.
Defined.

(** X6. What a run returns depends on the tree and on nothing else: not
    on the state it starts from, nor on the name of the log, nor on the
    pool size and schedule. Two runs over the same tree return the same
    map, or raise exceptions of the same class. *)
Theorem runs_over_one_tree_agree
    bufsize fs topdir processes processes' sched sched' fname fname' st st' :
  (1 ≤ processes)%nat → (1 ≤ processes')%nat →
  open_w fs fname = true → open_w fs fname' = true →
  schedule_of processes (length (allfiles fs topdir)) sched →
  schedule_of processes' (length (allfiles fs topdir)) sched' →
  (build_digest_map bufsize processes sched fs topdir fname st).1
  = (build_digest_map bufsize processes' sched' fs topdir fname' st').1.
Proof.
  intros Hp Hp' Hw Hw' Hs Hs'. rewrite !build_digest_map_unfold, Hw, Hw'.
  rewrite !bool_decide_eq_false_2 by lia.
  pose proof (starmap_complete bufsize fs processes sched (allfiles fs topdir)
                (launched st) (launched_open st)) as Hr.
  pose proof (starmap_complete bufsize fs processes' sched' (allfiles fs topdir)
                (launched st') (launched_open st')) as Hr'.
  cbn zeta in Hr, Hr'.
  destruct (starmap processes _ _ _ (launched st)) as [r s],
           (starmap processes' _ _ _ (launched st')) as [r' s'].
  cbn [fst snd] in *.
  destruct Hr as [(-> & a & e & Ha & He)|(vs & -> & HF & _)],
           Hr' as [(-> & a' & e' & Ha' & He')|(vs' & -> & HF' & _)].
  - done.
  - destruct (Forall2_elem_l _ _ _ _ HF' Ha) as (v & _ & Hv). congruence.
  - destruct (Forall2_elem_l _ _ _ _ HF Ha') as (v & _ & Hv). congruence.
  - rewrite (Forall2_outcome_eq _ _ _ _ HF HF'). by destruct (dict vs').
Qed.

Lemma runs_over_one_tree_agree_witness :
  (build_digest_map BUFSIZE 1 [] scenario "root" "1core.txt" fresh).1
  = (build_digest_map BUFSIZE 16 [1; 2; 0]%nat scenario "root" "16proc.txt"
       (build_digest_map BUFSIZE 1 [] scenario "root" "1core.txt" fresh).2).1.
Proof.
  apply (runs_over_one_tree_agree BUFSIZE scenario "root" 1 16 [] [1; 2; 0]%nat
           "1core.txt" "16proc.txt" fresh
           (build_digest_map BUFSIZE 1 [] scenario "root" "1core.txt" fresh).2).
  - lia.
  - lia.
  - reflexivity.
  - reflexivity.
  - left. reflexivity.
  - right. apply (bool_decide_unpack _). vm_compute. exact I.
Defined.

(** X7. A listed file that opens and then fails to read makes the whole
    run raise [OSError]: the error of one worker is not absorbed. *)
Theorem read_fault_aborts_run bufsize processes sched fs topdir fname st f d :
  (0 < bufsize)%N →
  (1 ≤ processes)%nat →
  open_w fs fname = true →
  schedule_of processes (length (allfiles fs topdir)) sched →
  f ∈ allfiles fs topdir →
  open_rb fs f = Some (Stream d true) →
  (build_digest_map bufsize processes sched fs topdir fname st).1 = Raise OSError.
Proof.
  intros Hpos Hp Hw Hs Hin Hopen. rewrite build_digest_map_unfold, Hw.
  rewrite bool_decide_eq_false_2 by lia.
  pose proof (starmap_complete bufsize fs processes sched (allfiles fs topdir)
                (launched st) (launched_open st)) as Hr.
  cbn zeta in Hr. destruct (starmap _ _ _ _ _) as [r s]. cbn [fst snd] in *.
  destruct Hr as [(-> & _)|(vs & -> & HF & _)]; [done|].
  destruct (Forall2_elem_l _ _ _ _ HF Hin) as (v & _ & Hv).
  unfold outcome, compute_digest in Hv. rewrite Hopen in Hv.
  unfold mbind, M_bind in Hv.
  destruct (read_loop_faulty bufsize f d SHA512.new fresh Hpos) as [k Hk].
  by rewrite Hk in Hv.
Qed.

Lemma read_fault_aborts_run_witness :
  (build_digest_map BUFSIZE POOLSIZE [] one_faulty "root" "1core.txt" fresh).1
  = Raise OSError.
Proof.
  apply (read_fault_aborts_run BUFSIZE POOLSIZE [] one_faulty "root" "1core.txt"
           fresh "root/a.txt" (bytes_of_string "hello")).
  - reflexivity.
  - unfold POOLSIZE. lia.
  - reflexivity.
  - left. reflexivity.
  - apply (bool_decide_unpack _). vm_compute. exact I.
  - reflexivity.
Defined.

(** ** The sink at the end of a run *)





(** X9. With one process, which is the program's default, the run log and
    the console follow the order of the walk: the line number [i] is
    that of the [i]-th listed file, with the digest the map holds for it. *)
Theorem one_process_follows_walk_order bufsize sched fs topdir fname st m st' :
  build_digest_map bufsize 1 sched fs topdir fname st = (Ret m, st') →
  let reports := (λ a, (a, default EmptyString (m !! a))) <$> allfiles fs topdir in
  (∀ a, a ∈ allfiles fs topdir → is_Some (m !! a))
  ∧ file (printer st') = (λ fd, log_line fd.1 fd.2) <$> reports
  ∧ stdout st' = stdout st ++ progress_lines 1 reports ++ summary (length reports).
Proof.
  intros Hrun.
  destruct (completed_run bufsize fs 1 sched topdir fname st m st' Hrun) as (_ & Hm).
  destruct (completed_run_in_order bufsize fs sched topdir fname st m st' Hrun)
    as [Hp Hs].
  cbn zeta in Hp, Hs |- *.
  assert ((λ a, (a, default EmptyString (m !! a))) <$> allfiles fs topdir
          = (λ a, (a, digest_of bufsize fs a)) <$> allfiles fs topdir) as ->.
  { apply list_fmap_ext. intros i a Ha. rewrite Hm.
    rewrite bool_decide_eq_true_2; [done|]. by eapply list_elem_of_lookup_2. }
  split_and!.
  - intros a Ha. rewrite Hm. rewrite bool_decide_eq_true_2 by done. by eexists.
  - by rewrite Hp.
  - exact Hs.
Qed.

Lemma one_process_follows_walk_order_witness :
  let m := match (build_digest_map BUFSIZE POOLSIZE [] scenario "root" "1core.txt" fresh).1
           with Ret m => m | Raise _ => ∅ end in
  let st' := (build_digest_map BUFSIZE POOLSIZE [] scenario "root" "1core.txt" fresh).2 in
  let reports := (λ a, (a, default EmptyString (m !! a))) <$> allfiles scenario "root" in
  (∀ a, a ∈ allfiles scenario "root" → is_Some (m !! a))
  ∧ file (printer st') = (λ fd, log_line fd.1 fd.2) <$> reports
  ∧ stdout st' = stdout fresh ++ progress_lines 1 reports ++ summary (length reports).
Proof.
  apply (one_process_follows_walk_order BUFSIZE [] scenario "root" "1core.txt" fresh).
  vm_compute. reflexivity.
Defined.

(** X10. A report made after [final] raises [ValueError] at the write, after
    the counter has been incremented and the progress line printed: the
    counter then exceeds the number of log lines. *)
Theorem report_after_final filename digest st :
  let st1 := (final st).2 in
  (msPrint filename digest st1).1 = Raise ValueError
  ∧ x (printer (msPrint filename digest st1).2) = S (x (printer st))
  ∧ file (printer (msPrint filename digest st1).2) = file (printer st)
  ∧ last (stdout (msPrint filename digest st1).2)
    = Some (progress_line (S (x (printer st))) filename digest).
Proof.
  cbn zeta. rewrite final_eq. cbn [snd].
  unfold msPrint, mbind, M_bind, incr_x, get_x, print, file_write.
  cbn [printer stdout logging x file closed fst snd].
  split_and!; [done|done|done|]. by rewrite last_snoc.
Qed.

(** ** The lines of the sink *)

Lemma append_assoc (s1 s2 s3 : string) : (s1 +:+ s2) +:+ s3 = s1 +:+ (s2 +:+ s3).
Proof.
  induction s1 as [|c s1 IH]; [done|].
  change (String c ((s1 +:+ s2) +:+ s3) = String c (s1 +:+ (s2 +:+ s3))).
  by rewrite IH.
Qed.

Lemma length_append (s1 s2 : string) :
  String.length (s1 +:+ s2) = (String.length s1 + String.length s2)%nat.
Proof.
  induction s1 as [|c s1 IH]; [done|].
  change (S (String.length (s1 +:+ s2)) = S (String.length s1 + String.length s2)).
  by rewrite IH.
Qed.

Lemma length_fill c n : String.length (Fmt.fill c n) = n.
Proof. induction n as [|n IH]; simpl; [done|]. by rewrite IH. Qed.

Lemma length_slice_to n s :
  String.length (Fmt.slice_to n s) = Nat.min n (String.length s).
Proof.
  unfold Fmt.slice_to. revert n. induction s as [|c s IH]; intros [|n]; simpl; try done.
  by rewrite IH.
Qed.

Lemma length_ljust_slice w s :
  String.length (Fmt.ljust w (Fmt.slice_to w s)) = w.
Proof.
  unfold Fmt.ljust. rewrite length_append, length_fill, length_slice_to. lia.
Qed.

Lemma pretty_N_go_length_bound k x s :
  (x < 10 ^ N.of_nat k)%N →
  (String.length (pretty_N_go x s) ≤ String.length s + k)%nat.
Proof.
  revert x s. induction k as [|k IH]; intros x s Hx.
  - assert (x = 0)%N as -> by (simpl in Hx; lia). rewrite pretty_N_go_0. lia.
  - destruct (decide (x = 0)%N) as [->|Hne]; [rewrite pretty_N_go_0; lia|].
    rewrite pretty_N_go_step by lia.
    etrans; [apply IH|simpl; lia].
    apply N.Div0.div_lt_upper_bound.
    rewrite Nat2N.inj_succ, N.pow_succ_r' in Hx. lia.
Qed.

Lemma pretty_N_go_length_ge x s :
  (String.length s ≤ String.length (pretty_N_go x s))%nat.
Proof.
  revert s. induction (N.lt_wf_0 x) as [x _ IH]; intros s.
  destruct (decide (x = 0)%N) as [->|Hne]; [by rewrite pretty_N_go_0|].
  rewrite pretty_N_go_step by lia.
  etrans; [|apply IH; apply N.div_lt; lia]. simpl. lia.
Qed.

Lemma length_zero_padded_ge w n : (w ≤ String.length (Fmt.zero_padded w n))%nat.
Proof. unfold Fmt.zero_padded. rewrite length_append, length_fill. lia. Qed.

Lemma length_zero_padded_small n :
  (N.of_nat n < 1000000)%N → String.length (Fmt.zero_padded 6 n) = 6%nat.
Proof.
  intros Hn. unfold Fmt.zero_padded. rewrite length_append, length_fill.
  assert (String.length (pretty n) ≤ 6)%nat; [|lia].
  unfold pretty, pretty_nat, pretty, pretty_N. case_decide; [simpl; lia|].
  etrans; [apply (pretty_N_go_length_bound 6)|simpl; lia].
  by replace (10 ^ N.of_nat 6)%N with 1000000%N by reflexivity.
Qed.

(** X11. While fewer than a million files have been reported, every
    progress line has the same length, 158 characters, whatever the
    lengths of the path and of the digest: the path is cut or padded to
    125 characters and the digest to 20, so each line printed after a
    carriage return covers the previous one. *)
Theorem progress_line_has_fixed_width n filename digest :
  (N.of_nat n < 1000000)%N →
  String.length (progress_line n filename digest) = 158%nat
  ∧ String.length (Fmt.ljust 125 (Fmt.slice_to 125 filename)) = 125%nat
  ∧ String.length (Fmt.ljust 20 (Fmt.slice_to 20 digest)) = 20%nat.
Proof.
  intros Hn. unfold progress_line.
  rewrite !length_append, !length_ljust_slice, length_zero_padded_small by done.
  done.
Qed.

Lemma progress_line_has_fixed_width_witness :
  String.length (progress_line 326 "D:\\Software\VLC\skins\fonts\FreeSansBold.ttf"
                   sha512_hello) = 158%nat
  ∧ String.length (Fmt.ljust 125 (Fmt.slice_to 125
                     "D:\\Software\VLC\skins\fonts\FreeSansBold.ttf")) = 125%nat
  ∧ String.length (Fmt.ljust 20 (Fmt.slice_to 20 sha512_hello)) = 20%nat.
Proof.
  apply (progress_line_has_fixed_width 326
           "D:\\Software\VLC\skins\fonts\FreeSansBold.ttf" sha512_hello).
  reflexivity.
Defined.

Lemma pretty_N_go_app x s t : pretty_N_go x s +:+ t = pretty_N_go x (s +:+ t).
Proof.
  revert s. induction (N.lt_wf_0 x) as [x _ IH]; intros s.
  destruct (decide (x = 0)%N) as [->|Hne]; [by rewrite !pretty_N_go_0|].
  rewrite (pretty_N_go_step x s), (pretty_N_go_step x (s +:+ t)) by lia.
  rewrite IH by (apply N.div_lt; lia). reflexivity.
Qed.

Lemma is_nat_pretty_char x :
  (x < 10)%N → Ascii.is_nat (pretty_N_char x) = Some (N.to_nat x).
Proof.
  intros Hx.
  assert (x = 0 ∨ x = 1 ∨ x = 2 ∨ x = 3 ∨ x = 4 ∨ x = 5 ∨ x = 6 ∨ x = 7
          ∨ x = 8 ∨ x = 9)%N as Hc by lia.
  by repeat (destruct Hc as [->|Hc]; [done|]); subst.
Qed.

Lemma leading_number_pretty_go x s :
  leading_number_from 0 (pretty_N_go x s) = leading_number_from x s.
Proof.
  revert s. induction (N.lt_wf_0 x) as [x _ IH]; intros s.
  destruct (decide (x = 0)%N) as [->|Hne]; [by rewrite pretty_N_go_0|].
  rewrite pretty_N_go_step by lia. rewrite IH by (apply N.div_lt; lia).
  cbn [leading_number_from]. rewrite is_nat_pretty_char by (apply N.mod_lt; lia).
  f_equal. rewrite N2Nat.id. rewrite (N.div_mod x 10) at 3 by lia. lia.
Qed.

Lemma leading_number_zeros k t :
  leading_number_from 0 (Fmt.fill "0" k +:+ t) = leading_number_from 0 t.
Proof. induction k as [|k IH]; [done|]. simpl. exact IH. Qed.

Lemma leading_number_zero_padded w n c t :
  Ascii.is_nat c = None →
  leading_number (Fmt.zero_padded w n +:+ String c t) = N.of_nat n.
Proof.
  intros Hc. unfold leading_number, Fmt.zero_padded.
  rewrite append_assoc, leading_number_zeros.
  unfold pretty, pretty_nat, pretty, pretty_N. case_decide as Hz.
  - rewrite Hz. simpl. by rewrite Hc.
  - rewrite pretty_N_go_app, leading_number_pretty_go. simpl. by rewrite Hc.
Qed.

(** X12. The sequence number can be read back from a progress line, so two
    progress lines carrying different numbers are different strings. *)
Theorem sequence_number_reads_back n filename digest :
  leading_number (progress_line n filename digest) = N.of_nat n
  ∧ ∀ n' filename' digest',
      progress_line n filename digest = progress_line n' filename' digest' → n = n'.
Proof.
  assert (∀ k f d, leading_number (progress_line k f d) = N.of_nat k) as Hread.
  { intros k f d. unfold progress_line. by apply leading_number_zero_padded. }
  split; [apply Hread|].
  intros n' f' d' Heq. apply Nat2N.inj.
  by rewrite <- (Hread n filename digest), <- (Hread n' f' d'), Heq.
Qed.

(** ** Reports that overlap *)

Lemma leading_number_progress_line n filename digest :
  leading_number (progress_line n filename digest) = N.of_nat n.
Proof. unfold progress_line. by apply leading_number_zero_padded. Qed.

(** C3 fails with two processes. Worker 0 hashes [a.txt] and its
    [msPrint] call increments the counter; worker 1 hashes [b.txt] and its
    call increments the counter; only then do the two calls read the
    counter for their progress lines. Both lines carry the number 2, and
    no line carries the number 1. The run returns the map of the three
    files, and [final] prints 3. *)
Lemma overlapping_reports_repeat_a_number :
  let run := build_digest_map BUFSIZE 2 [0; 0; 0; 0; 0; 1; 1; 1; 1; 0; 1]%nat
               scenario "root" "16proc.txt" fresh in
  schedule_of 2 (length (allfiles scenario "root"))
              [0; 0; 0; 0; 0; 1; 1; 1; 1; 0; 1]%nat
  ∧ run.1 = Ret (<["root/a.txt" := sha512_hello]>
                 (<["root/b.txt" := sha512_empty]>
                  (<["root/sub/c.txt" := sha512_world]> ∅)))
  ∧ stdout run.2 = [progress_line 2 "root/a.txt" sha512_hello;
                    progress_line 2 "root/b.txt" sha512_empty;
                    progress_line 3 "root/sub/c.txt" sha512_world] ++ summary 3
  ∧ ¬ ∃ reports : list (string * string),
        stdout run.2 =
          stdout fresh
            ++ zip_with (λ n fd, progress_line n fd.1 fd.2)
                        (seq 1 (length reports)) reports
            ++ [Fmt.NL;
                "Files Processed:" +:+ Fmt.TAB
                  +:+ Fmt.zero_padded 6 (length reports) +:+ Fmt.NL].
Proof.
  cbn zeta.
  assert (stdout (build_digest_map BUFSIZE 2 [0; 0; 0; 0; 0; 1; 1; 1; 1; 0; 1]%nat
                    scenario "root" "16proc.txt" fresh).2
          = [progress_line 2 "root/a.txt" sha512_hello;
             progress_line 2 "root/b.txt" sha512_empty;
             progress_line 3 "root/sub/c.txt" sha512_world] ++ summary 3) as Hout.
  { by vm_compute. }
  split_and!.
  - right. apply (bool_decide_unpack _). vm_compute. exact I.
  - vm_compute. reflexivity.
  - exact Hout.
  - rewrite Hout. intros [[|fd reports] Heq].
    + apply (f_equal length) in Heq. done.
    + cbn [length seq zip_with app stdout fresh summary] in Heq.
      apply (f_equal (λ l, leading_number (default EmptyString (head l)))) in Heq.
      cbv beta iota delta [head default id] in Heq.
      rewrite !leading_number_progress_line in Heq. done.
Qed.


(** ** The walk *)

Lemma node_nested_ind (P : node → Prop) :
  P File →
  (∀ r entries, Forall (λ e, P e.2) entries → P (Dir r entries)) →
  ∀ n, P n.
Proof.
  intros HF HD. fix IH 1. intros [|r entries]; [exact HF|]. apply HD.
  induction entries as [|e es IHes]; constructor; [apply IH|exact IHes].
Qed.

Lemma tree_ok_Dir r entries :
  tree_ok (Dir r entries) = true →
  NoDup (map fst entries)
  ∧ ∀ e, e ∈ entries → name_ok e.1 = true ∧ tree_ok e.2 = true.
Proof.
  simpl. intros [Hnd Hall]%andb_true_iff. split.
  - by apply bool_decide_eq_true in Hnd.
  - intros e He. rewrite forallb_forall in Hall.
    apply andb_true_iff, Hall. by apply list_elem_of_In.
Qed.

Lemma name_ok_spec s :
  name_ok s = true → s ≠ EmptyString ∧ "/"%char ∉ list_ascii_of_string s.
Proof.
  unfold name_ok. intros [H1 H2]%andb_true_iff. split.
  - apply negb_true_iff, bool_decide_eq_false in H1. done.
  - by apply bool_decide_eq_true in H2.
Qed.

Lemma name_ok_start s : name_ok s = true → starts_with_sep s = false.
Proof.
  intros [Hne Hsep]%name_ok_spec. destruct s as [|c s]; [done|].
  simpl. apply bool_decide_eq_false. intros ->. apply Hsep. simpl. by left.
Qed.

Lemma join_with_sep a b : starts_with_sep b = false → join a b = with_sep a +:+ b.
Proof.
  intros Hb. unfold join, with_sep. rewrite Hb.
  destruct (bool_decide (a = EmptyString) || ends_with_sep a); [done|].
  by rewrite append_assoc.
Qed.

Lemma ends_with_sep_app s t :
  t ≠ EmptyString → ends_with_sep (s +:+ t) = ends_with_sep t.
Proof.
  intros Ht. induction s as [|c s IH]; [done|].
  change (String c s +:+ t) with (String c (s +:+ t)).
  cbn [ends_with_sep]. destruct (s +:+ t) eqn:E; [|done].
  destruct s; [|done]. simpl in E. done.
Qed.

Lemma ends_with_sep_name s :
  "/"%char ∉ list_ascii_of_string s → ends_with_sep s = false.
Proof.
  induction s as [|c s IH]; [done|]. intros Hc. simpl in Hc.
  cbn [ends_with_sep]. destruct s as [|c' s'].
  - apply bool_decide_eq_false. intros ->. apply Hc. by left.
  - apply IH. intros Hin. apply Hc. by right.
Qed.

Lemma with_sep_child top d :
  name_ok d = true → with_sep (with_sep top +:+ d) = with_sep top +:+ d +:+ "/".
Proof.
  intros [Hne Hsep]%name_ok_spec. unfold with_sep at 1.
  rewrite ends_with_sep_app, ends_with_sep_name by done.
  rewrite bool_decide_eq_false_2; [by rewrite append_assoc|].
  destruct (with_sep top); [done|discriminate].
Qed.

Lemma head_of_child d r :
  "/"%char ∉ list_ascii_of_string d → head_of (d +:+ "/" +:+ r) = d.
Proof.
  induction d as [|c d IH]; intros Hc; [done|]. simpl in Hc.
  change (String c d +:+ "/" +:+ r) with (String c (d +:+ "/" +:+ r)).
  cbn [head_of]. rewrite bool_decide_eq_false_2.
  - f_equal. apply IH. intros Hin. apply Hc. by right.
  - intros ->. apply Hc. by left.
Qed.

Lemma head_of_name d : "/"%char ∉ list_ascii_of_string d → head_of d = d.
Proof.
  induction d as [|c d IH]; intros Hc; [done|]. simpl in Hc.
  cbn [head_of]. rewrite bool_decide_eq_false_2.
  - f_equal. apply IH. intros Hin. apply Hc. by right.
  - intros ->. apply Hc. by left.
Qed.

Lemma filenames_spec entries x :
  x ∈ filenames entries ↔ (x, File) ∈ entries.
Proof.
  unfold filenames. change (map fst ?l) with (fst <$> l).
  rewrite list_elem_of_fmap. split.
  - intros ([y [|r es]] & -> & [Hf Hin]%list_elem_of_filter); simpl in *; done.
  - intros Hin. exists (x, File). split; [done|]. by apply list_elem_of_filter.
Qed.

Lemma NoDup_filenames entries : NoDup (map fst entries) → NoDup (filenames entries).
Proof.
  unfold filenames. change (map fst ?l) with (fst <$> l). intros Hnd.
  eapply sublist_NoDup; [exact Hnd|]. apply fmap_sublist, sublist_filter.
Qed.

Lemma flat_map_flat_map {A B C} (f : B → list C) (g : A → list B) (l : list A) :
  flat_map f (flat_map g l) = flat_map (λ a, flat_map f (g a)) l.
Proof.
  induction l as [|a l IH]; [done|]. simpl. by rewrite List.flat_map_app, IH.
Qed.

Lemma flat_map_ext_elem {A B} (f g : A → list B) (l : list A) :
  (∀ a, a ∈ l → f a = g a) → flat_map f l = flat_map g l.
Proof.
  intros H. induction l as [|a l IH]; [done|]. simpl.
  rewrite H by left. rewrite IH; [done|]. intros b Hb. apply H. by right.
Qed.

Lemma map_flat_map {A B C} (f : B → C) (g : A → list B) (l : list A) :
  map f (flat_map g l) = flat_map (λ a, map f (g a)) l.
Proof.
  induction l as [|a l IH]; [done|]. simpl. by rewrite List.map_app, IH.
Qed.

Lemma map_ext_elem {A B} (f g : A → B) (l : list A) :
  (∀ a, a ∈ l → f a = g a) → map f l = map g l.
Proof.
  intros H. induction l as [|a l IH]; [done|]. simpl.
  rewrite H by left. rewrite IH; [done|]. intros b Hb. apply H. by right.
Qed.

(** The walk lists the relative paths, each behind the root. *)
Lemma files_of_relative n :
  tree_ok n = true →
  ∀ top, files_of top n = map (λ r, with_sep top +:+ r) (relative_paths n).
Proof.
  induction n as [|r entries IH] using node_nested_ind; intros Hok top; [done|].
  destruct r; [|done].
  apply tree_ok_Dir in Hok as [Hnd Hent].
  unfold files_of. cbn [walk flat_map relative_paths].
  rewrite List.map_app. f_equal.
  - apply map_ext_elem. intros x Hx%filenames_spec.
    apply join_with_sep, name_ok_start. by apply (Hent _ Hx).
  - rewrite flat_map_flat_map, map_flat_map.
    apply flat_map_ext_elem. intros [d c] He. cbn [fst snd].
    destruct c as [|r es] eqn:Hc; [done|].
    destruct (Hent _ He) as [Hname Hsub]. cbn [fst snd] in Hname, Hsub.
    rewrite Forall_forall in IH. specialize (IH _ He Hsub (join top d)).
    unfold files_of in IH. cbn [snd] in IH. rewrite IH.
    rewrite List.map_map. apply map_ext_elem. intros x _.
    rewrite join_with_sep by by apply name_ok_start.
    rewrite with_sep_child by done. by rewrite !append_assoc.
Qed.

Lemma NoDup_flat_map_key {A} (key : string → string) (k : A → string)
    (g : A → list string) (l : list A) :
  NoDup (map k l) →
  (∀ a, a ∈ l → NoDup (g a)) →
  (∀ a y, a ∈ l → y ∈ g a → key y = k a) →
  NoDup (flat_map g l).
Proof.
  induction l as [|a l IH]; intros Hnd Hg Hkey; simpl; [constructor|].
  apply NoDup_cons in Hnd as [Hnotin Hnd].
  apply NoDup_app. split_and!.
  - apply Hg. by left.
  - intros y Hy Hy'. apply list_elem_of_In, in_flat_map in Hy' as (a' & Ha' & Hy').
    apply list_elem_of_In in Ha', Hy'.
    apply Hnotin. change (map k l) with (k <$> l). apply list_elem_of_fmap.
    exists a'. split; [|done].
    rewrite <- (Hkey a y) by (by left || done).
    apply Hkey; [by right|done].
  - apply IH; [done|..].
    + intros b Hb. apply Hg. by right.
    + intros b y Hb Hy. apply Hkey; [by right|done].
Qed.

Lemma relative_paths_shape n :
  tree_ok n = true →
  ∀ x, x ∈ relative_paths n → x ≠ EmptyString ∧ starts_with_sep x = false.
Proof.
  destruct n as [|[] entries]; intros Hok x Hx; try by apply elem_of_nil in Hx.
  apply tree_ok_Dir in Hok as [Hnd Hent]. cbn [relative_paths] in Hx.
  apply elem_of_app in Hx as [Hx%filenames_spec|Hx].
  - destruct (Hent _ Hx) as [Hname _]. cbn [fst] in Hname.
    split; [by apply name_ok_spec|by apply name_ok_start].
  - apply list_elem_of_In, in_flat_map in Hx as ([d c] & He & Hx).
    apply list_elem_of_In in He. cbn [fst snd] in Hx.
    destruct c as [|r es]; [done|]. apply in_map_iff in Hx as (y & <- & _).
    destruct (Hent _ He) as [Hname _]. cbn [fst] in Hname.
    pose proof (name_ok_start _ Hname) as Hstart.
    apply name_ok_spec in Hname as [Hne _].
    destruct d as [|c0 d]; [done|]. split; [discriminate|exact Hstart].
Qed.

Lemma NoDup_relative_paths n : tree_ok n = true → NoDup (relative_paths n).
Proof.
  induction n as [|r entries IH] using node_nested_ind; intros Hok; [constructor|].
  destruct r; [|constructor].
  apply tree_ok_Dir in Hok as [Hnd Hent]. cbn [relative_paths].
  apply NoDup_app. split_and!.
  - by apply NoDup_filenames.
  - intros x Hx%filenames_spec Hx'.
    apply list_elem_of_In, in_flat_map in Hx' as ([d c] & He & Hx').
    apply list_elem_of_In in He. cbn [fst snd] in Hx'.
    destruct c as [|r es]; [done|]. apply in_map_iff in Hx' as (y & <- & _).
    destruct (Hent _ Hx) as [Hname _]. cbn [fst] in Hname.
    apply name_ok_spec in Hname as [_ Hsep]. apply Hsep.
    apply list_elem_of_In. clear. induction d as [|c d IHd]; simpl; [by left|by right].
  - apply (NoDup_flat_map_key head_of fst); [done|..].
    + intros [d c] He. cbn [fst snd]. destruct c as [|r es]; [constructor|].
      change (map ?f ?l) with (f <$> l). apply NoDup_fmap_2.
      * intros x y Hxy. by apply (inj (String.app d)), (inj (String.app "/")) in Hxy.
      * rewrite Forall_forall in IH. apply (IH _ He). by apply (Hent _ He).
    + intros [d c] y He Hy. cbn [fst snd] in Hy |- *.
      destruct c as [|r es]; [by apply elem_of_nil in Hy|].
      apply list_elem_of_In, in_map_iff in Hy as (z & <- & _).
      apply head_of_child. destruct (Hent _ He) as [Hname _].
      by apply name_ok_spec in Hname as [_ ?].
Qed.

Lemma allfiles_files_of fs topdir :
  allfiles fs topdir
  = match lookup_dir fs topdir with Some n => files_of topdir n | None => [] end.
Proof. unfold allfiles, os_walk, files_of. by destruct (lookup_dir fs topdir). Qed.

Lemma NoDup_files_of top n : tree_ok n = true → NoDup (files_of top n).
Proof.
  intros Hok. rewrite files_of_relative by done.
  change (map ?f ?l) with (f <$> l). apply NoDup_fmap_2.
  - apply _.
  - by apply NoDup_relative_paths.
Qed.

(** X13. In a tree whose directories hold distinct names without ["/"], the
    walk lists no path twice: no file is handed to the pool more than
    once. *)
Theorem walk_lists_each_file_once fs topdir :
  (∀ n, lookup_dir fs topdir = Some n → tree_ok n = true) →
  NoDup (allfiles fs topdir).
Proof.
  intros Hok. rewrite allfiles_files_of.
  destruct (lookup_dir fs topdir) as [n|] eqn:Hn; [|constructor].
  by apply NoDup_files_of, Hok.
Qed.

Lemma walk_lists_each_file_once_witness : NoDup (allfiles scenario "root").
Proof.
  apply (walk_lists_each_file_once scenario "root").
  intros n Hn. vm_compute in Hn. injection Hn as <-. reflexivity.
Defined.

(** X14. In such a tree every listed path is the root joined with a
    relative path that is not empty and does not begin with ["/"]: the
    walk never leaves the root it was given. *)
Theorem walk_stays_under_root fs topdir p :
  (∀ n, lookup_dir fs topdir = Some n → tree_ok n = true) →
  p ∈ allfiles fs topdir →
  ∃ r, r ≠ EmptyString ∧ starts_with_sep r = false ∧ p = join topdir r.
Proof.
  intros Hok. rewrite allfiles_files_of.
  destruct (lookup_dir fs topdir) as [n|]; [|by intros ?%elem_of_nil].
  rewrite files_of_relative by by apply Hok.
  intros (r & <- & Hr)%list_elem_of_In%in_map_iff. apply list_elem_of_In in Hr.
  destruct (relative_paths_shape n (Hok n eq_refl) r Hr) as [Hne Hstart].
  exists r. split_and!; [done|done|]. by rewrite join_with_sep.
Qed.

Lemma walk_stays_under_root_witness :
  ∃ r, r ≠ EmptyString ∧ starts_with_sep r = false
       ∧ "root/sub/c.txt" = join "root" r.
Proof.
  apply (walk_stays_under_root scenario "root" "root/sub/c.txt").
  - intros n Hn. vm_compute in Hn. injection Hn as <-. reflexivity.
  - apply (bool_decide_unpack _). vm_compute. exact I.
Defined.

(** X15. In such a tree, a run that returns gives a map with one entry per
    listed file: as many keys as the walk listed paths, whatever the pool
    size and the schedule. With one process this is also the final value
    of the counter. *)
Theorem map_has_one_entry_per_file
    bufsize processes sched fs topdir fname st m st' :
  (∀ n, lookup_dir fs topdir = Some n → tree_ok n = true) →
  build_digest_map bufsize processes sched fs topdir fname st = (Ret m, st') →
  size m = length (allfiles fs topdir)
  ∧ (processes = 1%nat → x (printer st') = size m).
Proof.
  intros Hok Hrun.
  assert (NoDup (allfiles fs topdir)) as Hnd.
  { rewrite allfiles_files_of.
    destruct (lookup_dir fs topdir) as [n|] eqn:Hn; [|constructor].
    by apply NoDup_files_of, Hok. }
  destruct (completed_run bufsize fs processes sched topdir fname st m st' Hrun)
    as (_ & Hm).
  assert (size m = length (allfiles fs topdir)) as Hsize.
  { assert (dom m = list_to_set (allfiles fs topdir)) as Hdom.
    { apply set_eq. intros k. rewrite elem_of_dom, elem_of_list_to_set, Hm.
      case_bool_decide; [|by split; [intros []|]]. split; [done|by eexists]. }
    rewrite <- size_dom, Hdom. by apply size_list_to_set. }
  split; [done|]. intros ->.
  destruct (completed_run_in_order bufsize fs sched topdir fname st m st' Hrun)
    as [Hp _].
  rewrite Hp, Hsize. cbn [x]. by rewrite length_fmap.
Qed.

Lemma map_has_one_entry_per_file_witness :
  let m := match (build_digest_map BUFSIZE 1 [] scenario "root" "1core.txt" fresh).1
           with Ret m => m | Raise _ => ∅ end in
  size m = length (allfiles scenario "root")
  ∧ (1%nat = 1%nat →
     x (printer (build_digest_map BUFSIZE 1 [] scenario "root" "1core.txt" fresh).2)
     = size m).
Proof.
  apply (map_has_one_entry_per_file BUFSIZE 1 [] scenario "root" "1core.txt" fresh).
  - intros n Hn. vm_compute in Hn. injection Hn as <-. reflexivity.
  - vm_compute. reflexivity.
Defined.

(** ** [_sanitize_filename] *)

Example sanitize_values :
  _sanitize_filename "AC/DC: Back In Black?" = "ACDC- Back In Black"
  ∧ _sanitize_filename (String double_quote "Heroes" +:+ String double_quote " <live>")
    = "'Heroes' live"
  ∧ _sanitize_filename "a\b*c|d" = "abcd".
Proof. by vm_compute. Qed.

Lemma sanitize_cons c s :
  _sanitize_filename (String c s)
  = if bool_decide (c ∈ windows_disallowed) then _sanitize_filename s
    else String (if bool_decide (c = ":"%char) then "-"%char
                 else if bool_decide (c = double_quote) then "'"%char else c)
                (_sanitize_filename s).
Proof.
  unfold _sanitize_filename. cbn [remove_chars].
  destruct (bool_decide (c ∈ windows_disallowed)); [done|].
  cbn [replace_char]. do 2 f_equal.
  destruct (decide (c = double_quote)) as [->|Hq].
  - by vm_compute.
  - by rewrite !(bool_decide_eq_false_2 (c = double_quote)) by done.
Qed.

Lemma sanitize_char_safe c :
  c ∉ windows_disallowed →
  (if bool_decide (c = ":"%char) then "-"%char
   else if bool_decide (c = double_quote) then "'"%char else c) ∉ unsafe_chars.
Proof.
  intros Hc. repeat case_bool_decide; subst.
  - by apply (bool_decide_unpack _).
  - by apply (bool_decide_unpack _).
  - unfold unsafe_chars. rewrite elem_of_app. intros [Hin|Hin]; [done|].
    apply elem_of_cons in Hin as [->|Hin]; [done|].
    apply elem_of_cons in Hin as [->|Hin]; [done|]. by apply elem_of_nil in Hin.
Qed.

Lemma sanitized_chars_safe (input_str : string) c :
  c ∈ list_ascii_of_string (_sanitize_filename input_str) → c ∉ unsafe_chars.
Proof.
  induction input_str as [|c0 s IH]; [by intros ?%elem_of_nil|].
  rewrite sanitize_cons. case_bool_decide as Hc; [done|].
  cbn [list_ascii_of_string]. intros [->|Hin]%elem_of_cons; [|by apply IH].
  by apply sanitize_char_safe.
Qed.

(** X16. A sanitized name holds no slash, question mark, backslash,
    asterisk, bar, angle bracket, double quote or colon, and is never
    longer than the name it comes from. *)
Theorem sanitized_name_is_safe (input_str : string) :
  (∀ c, c ∈ list_ascii_of_string (_sanitize_filename input_str) → c ∉ unsafe_chars)
  ∧ (String.length (_sanitize_filename input_str) ≤ String.length input_str)%nat.
Proof.
  split; [intros c; apply sanitized_chars_safe|].
  induction input_str as [|c s IH]; [done|].
  rewrite sanitize_cons. case_bool_decide; simpl; lia.
Qed.

(** X17. A name free of those characters is left as it is, and sanitizing
    twice is sanitizing once. *)
Theorem sanitize_is_idempotent (input_str : string) :
  ((∀ c, c ∈ list_ascii_of_string input_str → c ∉ unsafe_chars) →
   _sanitize_filename input_str = input_str)
  ∧ _sanitize_filename (_sanitize_filename input_str) = _sanitize_filename input_str.
Proof.
  assert (∀ s, (∀ c, c ∈ list_ascii_of_string s → c ∉ unsafe_chars) →
               _sanitize_filename s = s) as Hfix.
  { induction s as [|c s IH]; intros Hs; [done|].
    rewrite sanitize_cons.
    assert (c ∉ unsafe_chars) as Hc by (apply Hs; cbn; by left).
    unfold unsafe_chars in Hc. rewrite elem_of_app, !elem_of_cons in Hc.
    rewrite bool_decide_eq_false_2 by tauto.
    rewrite !bool_decide_eq_false_2 by (intros ->; tauto).
    rewrite IH; [done|]. intros c' Hc'. apply Hs. cbn. by right. }
  split; [apply Hfix|]. apply Hfix. intros c. apply sanitized_chars_safe.
Qed.

(** X18. Sanitizing works character by character: the sanitized form of a
    concatenation is the concatenation of the sanitized parts, so a file
    name built from artist, title and extension can be sanitized part by
    part. *)
Theorem sanitize_distributes_over_append (s t : string) :
  _sanitize_filename (s +:+ t) = _sanitize_filename s +:+ _sanitize_filename t.
Proof.
  induction s as [|c s IH]; [done|].
  change (String c s +:+ t) with (String c (s +:+ t)).
  rewrite !sanitize_cons, IH. by case_bool_decide.
Qed.

(** ** The work done before an abort *)

Lemma fmap_bind_list {A B C} (g : B → C) (f : A → list B) (l : list A) :
  g <$> (l ≫= f) = l ≫= (λ a, g <$> f a).
Proof.
  induction l as [|a l IH]; [done|].
  by rewrite !bind_cons, fmap_app, IH.
Qed.

(** X19. A run that ends in [TypeError] has failed at [dict] only: no
    read failed, some listed file could not be opened, and the log is left
    open, since [final] is not reached. With one process every file that
    could be hashed has by then had its [msPrint] call, in the order of
    the walk: the strings handed to [write] are the lines of those files,
    and the counter is their number. It is the map that is lost. *)
Theorem type_error_comes_after_all_hashing
    bufsize processes sched fs topdir fname st st' :
  build_digest_map bufsize processes sched fs topdir fname st = (Raise TypeError, st') →
  (∃ a, a ∈ allfiles fs topdir ∧ outcome bufsize fs a = Ret None)
  ∧ (∀ a, a ∈ allfiles fs topdir → ∃ v, outcome bufsize fs a = Ret v)
  ∧ closed (printer st') = false
  ∧ (processes = 1%nat →
     file (printer st')
       = allfiles fs topdir
           ≫= (λ a, (λ fd, log_line fd.1 fd.2) <$> reported (outcome bufsize fs a))
     ∧ x (printer st') = length (file (printer st'))).
Proof.
  rewrite build_digest_map_unfold.
  case_bool_decide; [by intros [=]|]. destruct (open_w fs fname); [|by intros [=]].
  pose proof (starmap_complete bufsize fs processes sched (allfiles fs topdir)
                (launched st) (launched_open st)) as Hstar.
  cbn zeta in Hstar.
  destruct (starmap _ _ _ _ _) as [res st2] eqn:Hrun. cbn [fst snd] in Hstar.
  destruct Hstar as [(-> & _)|(vs & -> & HF & Hopen)]; [by intros [=]|].
  destruct (dict vs) as [m|e] eqn:Hdict; [by intros [=]|].
  intros [= _ <-]. split_and!.
  - apply dict_raise_None in Hdict as [i Hi]%list_elem_of_lookup.
    destruct (Forall2_lookup_r _ _ _ _ _ HF Hi) as (a & Ha & Hout).
    exists a. split; [by eapply list_elem_of_lookup_2|done].
  - intros a Ha. destruct (Forall2_elem_l _ _ _ _ HF Ha) as (v & _ & Hv). eauto.
  - exact Hopen.
  - intros ->. apply starmap_in_order in Hrun as Hview; [|apply launched_open].
    unfold sink_view in Hview.
    change (printer (launched st)) with (Notify 0 [] false) in Hview.
    change (stdout (launched st)) with (stdout st) in Hview.
    rewrite foldl_sink_act, report_all in Hview. injection Hview as Hp Hs.
    rewrite Hp. cbn [file x]. rewrite ?app_nil_l. split.
    + by rewrite fmap_bind_list.
    + by rewrite length_fmap.
Qed.

Lemma type_error_comes_after_all_hashing_witness :
  (∃ a, a ∈ allfiles one_unreadable "root" ∧ outcome BUFSIZE one_unreadable a = Ret None)
  ∧ (∀ a, a ∈ allfiles one_unreadable "root" → ∃ v, outcome BUFSIZE one_unreadable a = Ret v)
  ∧ closed (printer (build_digest_map BUFSIZE 1 [] one_unreadable "root"
                       "1core.txt" fresh).2) = false
  ∧ (1%nat = 1%nat →
     file (printer (build_digest_map BUFSIZE 1 [] one_unreadable "root" "1core.txt" fresh).2)
       = allfiles one_unreadable "root"
           ≫= (λ a, (λ fd, log_line fd.1 fd.2) <$> reported (outcome BUFSIZE one_unreadable a))
     ∧ x (printer (build_digest_map BUFSIZE 1 [] one_unreadable "root" "1core.txt" fresh).2)
       = length (file (printer (build_digest_map BUFSIZE 1 [] one_unreadable "root"
                                  "1core.txt" fresh).2))).
Proof.
  apply (type_error_comes_after_all_hashing BUFSIZE 1 [] one_unreadable
           "root" "1core.txt" fresh).
  vm_compute. reflexivity.
Defined.
